(** * Raycaster: a shallow embedding of [wolf3d_main.py]

    The program is a Wolfenstein-style ray caster over an 8x8 tile map: a
    walkability query, a sampled line-of-sight test, the per-column depth
    march, player and enemy movement, and an angular hit-scan.

    Numbers.  Python [int] values are modelled as [Z].  Python [float] values
    are modelled as real numbers [R]: rounding, signed zeros, infinities and
    NaN are idealised away, so every result below is about the exact
    arithmetic the program approximates.  [math.cos], [math.sin], [math.tan]
    and [math.hypot] are the real functions; [math.atan2] is defined from
    [atan] by the usual quadrant analysis.

    Errors.  Code that can raise ([IndexError] on an unguarded list access,
    [ZeroDivisionError] on a division by a variable) lives in the [result]
    monad.  A division by a non-zero literal cannot raise and is written with
    the plain real division. *)

From Stdlib Require Import Reals Lra Lia ZArith List Bool Zfloor.
Import ListNotations.

#[local] Open Scope R_scope.

(** ** Python values and operations *)

Inductive exn : Type :=
| IndexError
| ZeroDivisionError.

Inductive result (A : Type) : Type :=
| Ok (a : A)
| Raise (e : exn).

Arguments Ok {A} a.
Arguments Raise {A} e.

Definition bind {A B : Type} (m : result A) (k : A -> result B) : result B :=
  match m with
  | Ok a => k a
  | Raise e => Raise e
  end.

Notation "x <- m ;; k" := (bind m (fun x => k))
  (at level 61, m at next level, right associativity).

Definition Rltb (x y : R) : bool := if Rlt_dec x y then true else false.

(** [int(x)] on a float: truncation toward zero. *)
Definition py_int (x : R) : Z := if Rle_dec 0 x then Zfloor x else Zceil x.

(** [a / b] on floats, with a divisor that is not a literal. *)
Definition py_div (a b : R) : result R :=
  if Req_dec_T b 0 then Raise ZeroDivisionError else Ok (a / b).

(** [a // b] on a float [a] and a non-zero literal [b]. *)
Definition py_floordiv (a b : R) : R := IZR (Zfloor (a / b)).

(** [a % b] on floats, for a positive literal [b]: the result is in [[0, b)]. *)
Definition py_mod (a b : R) : R := a - b * IZR (Zfloor (a / b)).

(** [math.hypot] and [math.atan2]. *)
Definition hypot (x y : R) : R := sqrt (x * x + y * y).

Definition atan2 (y x : R) : R :=
  if Rlt_dec 0 x then atan (y / x)
  else if Rlt_dec x 0 then
    (if Rle_dec 0 y then atan (y / x) + PI else atan (y / x) - PI)
  else if Rlt_dec 0 y then PI / 2
  else if Rlt_dec y 0 then - (PI / 2)
  else 0.

(** [len(l)]. *)
Definition py_len {A : Type} (l : list A) : Z := Z.of_nat (length l).

(** [l[i]]: indices in [[-len, len)] are valid, a negative one counts from
    the end, anything else raises [IndexError]. *)
Definition py_getitem {A : Type} (l : list A) (i : Z) : result A :=
  let k := if (i <? 0)%Z then (py_len l + i)%Z else i in
  if (k <? 0)%Z then Raise IndexError
  else match nth_error l (Z.to_nat k) with
       | Some a => Ok a
       | None => Raise IndexError
       end.

(** [range(start, stop, step)] for a positive [step]. *)
Definition py_range (start stop step : Z) : list Z :=
  map (fun k => (start + step * Z.of_nat k)%Z)
      (seq 0 (Z.to_nat ((stop - start + step - 1) / step))).

(** ** Constants *)

Definition SCREEN_WIDTH : Z := 1366.
Definition SCREEN_HEIGHT : Z := 728.
Definition MAP_WIDTH : Z := 8.
Definition MAP_HEIGHT : Z := 8.
Definition TILE_SIZE : Z := 64.
Definition FOV : R := PI / 3.
Definition NUM_RAYS : Z := 240.
Definition MAX_DEPTH : Z := 800.
Definition DELTA_ANGLE : R := FOV / IZR NUM_RAYS.
Definition DISTANCE : R := IZR NUM_RAYS / (2 * tan (FOV / 2)).
Definition PROJ_COEFF : R := 3 * DISTANCE * IZR TILE_SIZE.
Definition SCALE : Z := (SCREEN_WIDTH / NUM_RAYS)%Z.

(** The map: 1 is a wall, 0 is empty. *)
Definition game_map : list (list Z) :=
  [ [1;1;1;1;1;1;1;1];
    [1;0;0;0;0;0;0;1];
    [1;0;1;0;1;0;0;1];
    [1;0;1;0;1;0;0;1];
    [1;0;0;0;0;0;0;1];
    [1;0;1;1;1;1;0;1];
    [1;0;0;0;0;0;0;1];
    [1;1;1;1;1;1;1;1] ]%Z.

Definition player_speed : R := 2.

(** ** The grid *)

(** [game_map[j][i]], unguarded. *)
Definition cell (j i : Z) : result Z :=
  row <- py_getitem game_map j ;;
  py_getitem row i.

(** The guard [0 <= i < len(game_map[0]) and 0 <= j < len(game_map)]. *)
Definition in_grid (i j : Z) : bool :=
  (0 <=? i)%Z && (i <? py_len (hd [] game_map))%Z &&
  (0 <=? j)%Z && (j <? py_len game_map)%Z.

(** [can_move(x, y)]: the access [game_map[j][i]] sits under the guard, where
    it cannot raise (lemma [cell_in_grid]); its value is read with a default
    that is never used. *)
Definition can_move (x y : R) : bool :=
  let i := py_int (x / IZR TILE_SIZE) in
  let j := py_int (y / IZR TILE_SIZE) in
  if in_grid i j then
    match cell j i with
    | Ok v => (v =? 0)%Z
    | Raise _ => false
    end
  else false.

(** ** Line of sight *)

(** The loop [for step in range(1, steps)] of [line_of_sight]. *)
Fixpoint los_loop (px py dx dy : R) (steps : Z) (l : list Z) : result bool :=
  match l with
  | [] => Ok true
  | step :: rest =>
      sx <- py_div (dx * IZR step) (IZR steps) ;;
      sy <- py_div (dy * IZR step) (IZR steps) ;;
      if can_move (px + sx) (py + sy)
      then los_loop px py dx dy steps rest
      else Ok false
  end.

(** [steps = int(distance / 4)]. *)
Definition los_steps (px py ex ey : R) : Z :=
  py_int (hypot (ex - px) (ey - py) / 4).

Definition line_of_sight (px py ex ey : R) : result bool :=
  let dx := ex - px in
  let dy := ey - py in
  let steps := los_steps px py ex ey in
  los_loop px py dx dy steps (py_range 1 steps 1).

(** ** Draw commands *)

(** One call of [pygame.draw.rect(screen, color, (x, y, w, h))]. *)
Record rect : Type := mkRect {
  r_color : R * R * R;
  r_x : R;
  r_y : R;
  r_w : R;
  r_h : R
}.

(** ** Enemies *)

Record Enemy : Type := mkEnemy {
  enemy_x : R;
  enemy_y : R;
  alive : bool
}.

Definition distance_to_player (player_pos : R * R) (self : Enemy) : R :=
  hypot (fst player_pos - enemy_x self) (snd player_pos - enemy_y self).

Definition move_toward_player (player_pos : R * R) (self : Enemy) : Enemy :=
  let angle := atan2 (snd player_pos - enemy_y self)
                     (fst player_pos - enemy_x self) in
  let dx := 0.5 * cos angle in
  let dy := 0.5 * sin angle in
  let new_x := enemy_x self + dx in
  let new_y := enemy_y self + dy in
  let i := py_int (new_x / IZR TILE_SIZE) in
  let j := py_int (new_y / IZR TILE_SIZE) in
  if in_grid i j then
    match cell j i with
    | Ok v => if (v =? 0)%Z then mkEnemy new_x new_y (alive self) else self
    | Raise _ => self
    end
  else self.

(** [Enemy.draw]: [None] when nothing is drawn. *)
Definition draw (player_pos : R * R) (player_angle : R) (self : Enemy)
  : result (option rect) :=
  if negb (alive self) then Ok None
  else
    los <- line_of_sight (fst player_pos) (snd player_pos)
                         (enemy_x self) (enemy_y self) ;;
    if negb los then Ok None
    else
      let dx := enemy_x self - fst player_pos in
      let dy := enemy_y self - snd player_pos in
      let distance := hypot dx dy in
      let angle := atan2 dy dx - player_angle in
      if Rltb (- FOV / 2) angle && Rltb angle (FOV / 2) then
        proj_height <- py_div PROJ_COEFF (distance + 0.0001) ;;
        let x := IZR (SCREEN_WIDTH / 2) + tan angle * DISTANCE
                 - py_floordiv proj_height 4 in
        let y := IZR (SCREEN_HEIGHT / 2) - py_floordiv proj_height 2 in
        Ok (Some (mkRect (255, 0, 0) x y (py_floordiv proj_height 2) proj_height))
      else Ok None.

Definition enemies0 : list Enemy :=
  [ mkEnemy (IZR (5 * TILE_SIZE)) (IZR (5 * TILE_SIZE)) true;
    mkEnemy (IZR (3 * TILE_SIZE)) (IZR (6 * TILE_SIZE)) true ].

(** ** Ray casting *)

(** [wall_height = PROJ_COEFF / (depth + 0.0001)]. *)
Definition wall_height (depth : R) : result R :=
  py_div PROJ_COEFF (depth + 0.0001).

(** The body of the [if game_map[j][i] == 1] branch: the column drawn for a
    wall found at raw distance [depth]. *)
Definition wall_column (ray : Z) (depth angle cur_angle : R) : result rect :=
  let depth := depth * cos (angle - cur_angle) in
  wh <- wall_height depth ;;
  color <- py_div 255 (1 + depth * depth * 0.0001) ;;
  Ok (mkRect (color, color, color)
             (IZR (ray * SCALE))
             (IZR (SCREEN_HEIGHT / 2) - py_floordiv wh 2)
             (IZR SCALE)
             wh).

(** The loop [for depth in range(0, MAX_DEPTH, 4)] of one ray.  The first
    component logs, in order, the index pairs [(j, i)] at which
    [game_map[j][i]] was evaluated; the second is the column drawn, [None]
    when the depths are exhausted without a wall. *)
Fixpoint march (pos : R * R) (angle cur_angle : R) (ray : Z) (depths : list Z)
  : list (Z * Z) * result (option rect) :=
  match depths with
  | [] => ([], Ok None)
  | depth :: rest =>
      let x := fst pos + IZR depth * cos cur_angle in
      let y := snd pos + IZR depth * sin cur_angle in
      let i := py_int (x / IZR TILE_SIZE) in
      let j := py_int (y / IZR TILE_SIZE) in
      match cell j i with
      | Raise e => ([(j, i)], Raise e)
      | Ok v =>
          if (v =? 1)%Z then
            ([(j, i)], c <- wall_column ray (IZR depth) angle cur_angle ;; Ok (Some c))
          else
            let (log, r) := march pos angle cur_angle ray rest in
            ((j, i) :: log, r)
      end
  end.

(** One iteration of [for ray in range(NUM_RAYS)]. *)
Definition cast_ray (pos : R * R) (angle : R) (ray : Z)
  : list (Z * Z) * result (option rect) :=
  let start_angle := angle - FOV / 2 in
  let cur_angle := start_angle + IZR ray * DELTA_ANGLE in
  march pos angle cur_angle ray (py_range 0 MAX_DEPTH 4).

Fixpoint cast_rays (pos : R * R) (angle : R) (rays : list Z)
  : list (Z * Z) * result (list rect) :=
  match rays with
  | [] => ([], Ok [])
  | ray :: rest =>
      let (log, r) := cast_ray pos angle ray in
      match r with
      | Raise e => (log, Raise e)
      | Ok c =>
          let (log', r') := cast_rays pos angle rest in
          (log ++ log',
           cs <- r' ;;
           Ok (match c with Some c => c :: cs | None => cs end))
      end
  end.

(** [ray_casting(screen, pos, angle)]: the index log and the columns drawn. *)
Definition ray_casting (pos : R * R) (angle : R)
  : list (Z * Z) * result (list rect) :=
  cast_rays pos angle (py_range 0 NUM_RAYS 1).

(** ** The game loop *)

Record state : Type := mkState {
  player_pos : R * R;
  player_angle : R;
  enemies : list Enemy
}.

(** The keys read by one iteration of the loop. *)
Record keys : Type := mkKeys {
  K_a : bool;
  K_d : bool;
  K_w : bool;
  K_s : bool;
  K_SPACE : bool
}.

Definition state0 : state :=
  mkState (IZR (TILE_SIZE + TILE_SIZE / 2), IZR (TILE_SIZE + TILE_SIZE / 2))
          0 enemies0.

Definition turn_left (st : state) : state :=
  mkState (player_pos st) (player_angle st - 0.03) (enemies st).

Definition turn_right (st : state) : state :=
  mkState (player_pos st) (player_angle st + 0.03) (enemies st).

(** The body of [if keys[pygame.K_w]]. *)
Definition move_forward (st : state) : state :=
  let dx := player_speed * cos (player_angle st) in
  let dy := player_speed * sin (player_angle st) in
  let new_x := fst (player_pos st) + dx in
  let new_y := snd (player_pos st) + dy in
  if can_move new_x new_y
  then mkState (new_x, new_y) (player_angle st) (enemies st)
  else st.

(** The body of [if keys[pygame.K_s]]. *)
Definition move_backward (st : state) : state :=
  let dx := player_speed * cos (player_angle st) in
  let dy := player_speed * sin (player_angle st) in
  let new_x := fst (player_pos st) - dx in
  let new_y := snd (player_pos st) - dy in
  if can_move new_x new_y
  then mkState (new_x, new_y) (player_angle st) (enemies st)
  else st.

Definition movement (ks : keys) (st : state) : state :=
  let st := if K_a ks then turn_left st else st in
  let st := if K_d ks then turn_right st else st in
  let st := if K_w ks then move_forward st else st in
  let st := if K_s ks then move_backward st else st in
  st.

(** The move selected by a sign: [+1] is the [K_w] branch, [-1] the [K_s]
    branch. *)
Definition move_along_heading (sign : Z) (st : state) : state :=
  if (0 <? sign)%Z then move_forward st else move_backward st.

(** [abs((angle - player_angle + math.pi) % (2 * math.pi) - math.pi)]. *)
Definition angle_diff (angle heading : R) : R :=
  Rabs (py_mod (angle - heading + PI) (2 * PI) - PI).

(** The specification's reading of the same quantity: the representative of
    a difference [d] modulo [2 PI] that lies in [(-PI, PI]].  It is compared
    with the program's expression in [wrapped_magnitude_agrees]. *)
Definition spec_wrap_half_open (d : R) : R :=
  d - 2 * PI * IZR (Zceil ((d - PI) / (2 * PI))).

(** The body of [for enemy in enemies] under [if keys[pygame.K_SPACE]]. *)
Definition shoot (pos : R * R) (heading : R) (enemy : Enemy) : Enemy :=
  if alive enemy then
    let dx := enemy_x enemy - fst pos in
    let dy := enemy_y enemy - snd pos in
    let angle := atan2 dy dx in
    if Rltb (angle_diff angle heading) 0.1
       && Rltb (distance_to_player pos enemy) 300
    then mkEnemy (enemy_x enemy) (enemy_y enemy) false
    else enemy
  else enemy.

Definition fire (st : state) : state :=
  mkState (player_pos st) (player_angle st)
          (map (shoot (player_pos st) (player_angle st)) (enemies st)).

Definition shooting (ks : keys) (st : state) : state :=
  if K_SPACE ks then fire st else st.

(** One iteration of the final [for enemy in enemies]: the pursuit step of an
    alive enemy, then its [draw]. *)
Definition enemy_step (pos : R * R) (heading : R) (enemy : Enemy)
  : result (Enemy * option rect) :=
  let enemy := if alive enemy then move_toward_player pos enemy else enemy in
  d <- draw pos heading enemy ;;
  Ok (enemy, d).

Fixpoint enemy_steps (pos : R * R) (heading : R) (es : list Enemy)
  : result (list Enemy * list (option rect)) :=
  match es with
  | [] => Ok ([], [])
  | enemy :: rest =>
      r <- enemy_step pos heading enemy ;;
      rs <- enemy_steps pos heading rest ;;
      Ok (fst r :: fst rs, snd r :: snd rs)
  end.

(** What one frame hands to the screen: the wall columns by increasing ray,
    then, for each enemy of the roster in order, its sprite if it drew one. *)
Record frame_out : Type := mkOut {
  walls : list rect;
  sprites : list (option rect)
}.

(** One iteration of [while True] in which no [QUIT] event arrives. *)
Definition frame (ks : keys) (st : state) : result (state * frame_out) :=
  let st := movement ks st in
  let st := shooting ks st in
  ws <- snd (ray_casting (player_pos st) (player_angle st)) ;;
  r <- enemy_steps (player_pos st) (player_angle st) (enemies st) ;;
  Ok (mkState (player_pos st) (player_angle st) (fst r), mkOut ws (snd r)).

(** The loop over a finite sequence of key readings, with the output of
    every frame. *)
Fixpoint run (inputs : list keys) (st : state)
  : result (state * list frame_out) :=
  match inputs with
  | [] => Ok (st, [])
  | ks :: rest =>
      r <- frame ks st ;;
      rs <- run rest (fst r) ;;
      Ok (fst rs, snd r :: snd rs)
  end.

(** The states the program can be in at the top of the loop. *)
Inductive reachable : state -> Prop :=
| reach_init : reachable state0
| reach_frame : forall st ks st' out,
    reachable st -> frame ks st = Ok (st', out) -> reachable st'.

(** A world point lies in an Empty cell of the map. *)
Definition in_empty_cell (p : R * R) : Prop := can_move (fst p) (snd p) = true.

(** [int(x / TILE_SIZE), int(y / TILE_SIZE)]: the tile [(i, j)] of a point,
    as [can_move], [move_toward_player] and [ray_casting] compute it. *)
Definition tile_of (p : R * R) : Z * Z :=
  (py_int (fst p / IZR TILE_SIZE), py_int (snd p / IZR TILE_SIZE)).

(** The grid indices of a logged access are within the map. *)
Definition index_in_range (ji : Z * Z) : Prop :=
  (0 <= snd ji < MAP_WIDTH)%Z /\ (0 <= fst ji < MAP_HEIGHT)%Z.

(** ** Reading the march of one ray *)

(** Consecutive depths of a list, starting from [d], are at most 4 apart. *)
Fixpoint spaced (d : Z) (depths : list Z) : bool :=
  match depths with
  | [] => true
  | d' :: rest => (d <=? d')%Z && (d' <=? d + 4)%Z && spaced d' rest
  end.

(** The access [game_map[j][i]] succeeded on a cell that is not a wall. *)
Definition not_wall (ji : Z * Z) : Prop :=
  exists v, cell (fst ji) (snd ji) = Ok v /\ v <> 1%Z.

(** The three ways the march of one ray can stop, read off its log and its
    result: on the first wall cell, with a column drawn; after all the
    depths, with nothing drawn; on an access that raised. *)
Definition stops_at_wall (m : list (Z * Z) * result (option rect)) : Prop :=
  exists pre ji c,
    fst m = pre ++ [ji] /\ Forall not_wall pre /\
    cell (fst ji) (snd ji) = Ok 1%Z /\ snd m = Ok (Some c).

Definition stops_exhausted (m : list (Z * Z) * result (option rect)) : Prop :=
  Z.of_nat (length (fst m)) = (MAX_DEPTH / 4)%Z /\
  Forall not_wall (fst m) /\ snd m = Ok None.

Definition stops_on_fault (m : list (Z * Z) * result (option rect)) : Prop :=
  exists pre ji,
    fst m = pre ++ [ji] /\ Forall not_wall pre /\
    cell (fst ji) (snd ji) = Raise IndexError /\ ~ index_in_range ji /\
    snd m = Raise IndexError.

(** What a drawn wall column looks like: a grey of legal intensity, a
    positive height, the width of one ray, a place within the span of the
    fan, and a centre on the horizontal midline of the screen (to within a
    pixel). *)
Definition well_formed_column (c : rect) : Prop :=
  (exists v, r_color c = (v, v, v) /\ 0 < v <= 255) /\
  0 < r_h c /\
  r_w c = IZR SCALE /\
  0 <= r_x c /\ r_x c + r_w c <= IZR (NUM_RAYS * SCALE) /\
  IZR (SCREEN_HEIGHT / 2) <= r_y c + r_h c / 2 < IZR (SCREEN_HEIGHT / 2) + 1.

(** ** The soft invariant *)

(** Every live position -- the player's and that of every alive enemy -- lies
    in an Empty cell. *)
Definition live_in_empty_cells (st : state) : Prop :=
  in_empty_cell (player_pos st) /\
  forall e, In e (enemies st) -> alive e = true ->
            in_empty_cell (enemy_x e, enemy_y e).

(** ** Configurations used as examples *)

(** An alive enemy at distance [r] from [pos] in the direction [dir]. *)
Definition enemy_at_polar (pos : R * R) (dir r : R) : Enemy :=
  mkEnemy (fst pos + r * cos dir) (snd pos + r * sin dir) true.

(** The player at its start, heading 0, with one enemy dead ahead at distance
    100 and one at the same distance 0.2 rad off the heading. *)
Definition shooting_range : state :=
  mkState (96, 96) 0
          [ enemy_at_polar (96, 96) (0 + 0) 100;
            enemy_at_polar (96, 96) (0 + 0.2) 100 ].

(** The player in tile (1, 2) heading 0 and an enemy in tile (3, 2), on the
    other side of the wall tile (2, 2). *)
Definition behind_wall : state :=
  mkState (96, 160) 0 [ mkEnemy 224 160 true ].

(** The start of the game with the first enemy already shot. *)
Definition first_enemy_dead : state :=
  mkState (player_pos state0) (player_angle state0)
          [ mkEnemy (IZR (5 * TILE_SIZE)) (IZR (5 * TILE_SIZE)) false;
            mkEnemy (IZR (3 * TILE_SIZE)) (IZR (6 * TILE_SIZE)) true ].

Definition all_keys : keys := mkKeys true true true true true.

(** Only the turn-right key held; no key held. *)
Definition turn_right_only : keys := mkKeys false true false false false.

Definition no_keys : keys := mkKeys false false false false false.

(** * Properties *)

(** ** Truncation, division and comparison *)

Lemma Rltb_true (x y : R) : Rltb x y = true <-> x < y.
Proof. unfold Rltb; destruct (Rlt_dec x y); split; intros; congruence || lra. Qed.

Lemma Rltb_false (x y : R) : Rltb x y = false <-> y <= x.
Proof. unfold Rltb; destruct (Rlt_dec x y); split; intros; congruence || lra. Qed.

Lemma py_int_nonneg (x : R) : 0 <= x -> py_int x = Zfloor x.
Proof. intros H; unfold py_int; destruct (Rle_dec 0 x); [reflexivity | lra]. Qed.

Lemma py_int_eq (k : Z) (x : R) :
  (0 <= k)%Z -> IZR k <= x < IZR k + 1 -> py_int x = k.
Proof.
  intros Hk Hx. apply IZR_le in Hk.
  rewrite py_int_nonneg by lra. now apply Zfloor_eq.
Qed.

Lemma py_int_small_neg (x : R) : -1 < x < 0 -> py_int x = 0%Z.
Proof.
  intros Hx; unfold py_int; destruct (Rle_dec 0 x); [lra |].
  apply Zceil_eq; lra.
Qed.

Lemma py_int_ge (k : Z) (x : R) : (0 <= k)%Z -> IZR k <= x -> (k <= py_int x)%Z.
Proof.
  intros Hk Hx. apply IZR_le in Hk.
  rewrite py_int_nonneg by lra. now apply Zfloor_lub.
Qed.

Lemma py_int_lt (k : Z) (x : R) : 0 <= x -> x < IZR k -> (py_int x < k)%Z.
Proof.
  intros H0 Hx. rewrite py_int_nonneg by assumption.
  apply lt_IZR. generalize (Zfloor_bound x); lra.
Qed.

(** For a point whose truncated index is non-negative and in range the
    coordinate itself is bracketed by the tile. *)
Lemma py_int_bracket (x : R) (lo hi : Z) :
  (1 <= lo)%Z -> (lo <= py_int x <= hi)%Z -> IZR lo <= x < IZR hi + 1.
Proof.
  intros Hlo [H1 H2]. unfold py_int in *.
  destruct (Rle_dec 0 x) as [Hx | Hx].
  - generalize (Zfloor_bound x); intros [Ha Hb].
    apply IZR_le in H1, H2. lra.
  - exfalso. assert (Zceil x <= 0)%Z; [| lia].
    replace 0%Z with (Zceil 0) by (apply Zceil_eq; lra).
    apply Zceil_le; lra.
Qed.

Lemma py_div_ok (a b : R) : b <> 0 -> py_div a b = Ok (a / b).
Proof. intros H; unfold py_div; destruct (Req_dec_T b 0); [contradiction | reflexivity]. Qed.

(** ** The grid *)

Lemma in_grid_spec (i j : Z) :
  in_grid i j = true <-> (0 <= i < MAP_WIDTH)%Z /\ (0 <= j < MAP_HEIGHT)%Z.
Proof.
  unfold in_grid, MAP_WIDTH, MAP_HEIGHT; simpl hd.
  change (py_len _) with 8%Z at 1. change (py_len _) with 8%Z.
  rewrite !andb_true_iff, !Z.leb_le, !Z.ltb_lt. lia.
Qed.

Lemma small_index_cases (i : Z) :
  (0 <= i < 8)%Z ->
  i = 0%Z \/ i = 1%Z \/ i = 2%Z \/ i = 3%Z \/ i = 4%Z \/ i = 5%Z \/ i = 6%Z \/ i = 7%Z.
Proof. lia. Qed.

(** Within the grid every cell access succeeds and holds 0 or 1; the outer
    ring is all wall, so an Empty cell is an interior one. *)
Lemma cell_facts (i j : Z) :
  (0 <= i < 8)%Z -> (0 <= j < 8)%Z ->
  exists v, cell j i = Ok v /\ (v = 0 \/ v = 1)%Z /\
            (v = 0%Z -> (1 <= i <= 6)%Z /\ (1 <= j <= 6)%Z).
Proof.
  intros Hi Hj.
  apply small_index_cases in Hi; apply small_index_cases in Hj.
  repeat (destruct Hi as [Hi | Hi]); repeat (destruct Hj as [Hj | Hj]); subst;
    vm_compute; eexists; (split; [reflexivity |]); split;
    solve [ now left | now right | intros H; try discriminate H; repeat split; discriminate ].
Qed.

(** The guarded access of [can_move] and [move_toward_player] never raises. *)
Lemma cell_in_grid (i j : Z) :
  in_grid i j = true -> exists v, cell j i = Ok v /\ (v = 0 \/ v = 1)%Z.
Proof.
  intros H; apply in_grid_spec in H; destruct H as [Hi Hj].
  destruct (cell_facts i j Hi Hj) as (v & Hc & Hv & _); eauto.
Qed.

Lemma can_move_true (x y : R) :
  can_move x y = true <->
  (let i := py_int (x / IZR TILE_SIZE) in
   let j := py_int (y / IZR TILE_SIZE) in
   (0 <= i < MAP_WIDTH)%Z /\ (0 <= j < MAP_HEIGHT)%Z /\ cell j i = Ok 0%Z).
Proof.
  unfold can_move; cbv zeta.
  destruct (in_grid _ _) eqn:G.
  - pose proof G as G'. apply in_grid_spec in G'; destruct G' as [Hi Hj].
    destruct (cell_in_grid _ _ G) as (v & Hc & Hv). rewrite Hc.
    split.
    + intros H; apply Z.eqb_eq in H; subst; auto.
    + intros (_ & _ & H); inversion H; reflexivity.
  - split; [discriminate |].
    intros (Hi & Hj & _).
    assert (in_grid (py_int (x / IZR TILE_SIZE)) (py_int (y / IZR TILE_SIZE)) = true)
      by (apply in_grid_spec; auto).
    congruence.
Qed.

(** A point of an Empty cell lies in the interior square of the map. *)
Lemma can_move_interior (x y : R) :
  can_move x y = true -> 64 <= x < 448 /\ 64 <= y < 448.
Proof.
  intros H; apply can_move_true in H; cbv zeta in H.
  destruct H as (Hi & Hj & Hc).
  destruct (cell_facts _ _ Hi Hj) as (v & Hc' & _ & Hint).
  rewrite Hc in Hc'; inversion Hc'; subst v.
  destruct (Hint eq_refl) as [Ii Ij].
  unfold TILE_SIZE in *.
  pose proof (py_int_bracket (x / 64) 1 6 ltac:(lia) Ii) as Bx.
  pose proof (py_int_bracket (y / 64) 1 6 ltac:(lia) Ij) as By.
  lra.
Qed.

(** Walkability of a point known to lie in tile [(i, j)]. *)
Lemma can_move_in_tile (i j : Z) (x y : R) :
  (0 <= i)%Z -> (0 <= j)%Z ->
  IZR i * 64 <= x < IZR i * 64 + 64 ->
  IZR j * 64 <= y < IZR j * 64 + 64 ->
  can_move x y =
  (if in_grid i j then match cell j i with Ok v => (v =? 0)%Z | Raise _ => false end
   else false).
Proof.
  intros Hi Hj Hx Hy. unfold can_move, TILE_SIZE; cbv zeta.
  rewrite (py_int_eq i (x / 64)) by (auto; lra).
  rewrite (py_int_eq j (y / 64)) by (auto; lra).
  reflexivity.
Qed.

(** Decide [can_move] at a point that arithmetic places in tile [(i, j)]. *)
Ltac in_tile i j :=
  rewrite (can_move_in_tile i j); [reflexivity | lia | lia | lra | lra].

(** Everything outside the grid is solid. *)
Lemma can_move_outside (x y : R) :
  x < 0 \/ y < 0 \/
  IZR (MAP_WIDTH * TILE_SIZE) <= x \/ IZR (MAP_HEIGHT * TILE_SIZE) <= y ->
  can_move x y = false.
Proof.
  intros H.
  destruct (can_move x y) eqn:E; [exfalso | reflexivity].
  apply can_move_interior in E.
  change (IZR (MAP_WIDTH * TILE_SIZE)) with 512 in H.
  change (IZR (MAP_HEIGHT * TILE_SIZE)) with 512 in H.
  lra.
Qed.

(** ** Ranges *)

Lemma py_range_unit_nil (stop : Z) : (stop <= 1)%Z -> py_range 1 stop 1 = [].
Proof.
  intros H; unfold py_range.
  replace (Z.to_nat ((stop - 1 + 1 - 1) / 1)) with 0%nat; [reflexivity |].
  rewrite Z.div_1_r; lia.
Qed.

Lemma py_range_In (start stop : Z) (k : Z) :
  In k (py_range start stop 1) -> (start <= k < stop)%Z.
Proof.
  unfold py_range; rewrite in_map_iff; intros (n & <- & Hn).
  apply in_seq in Hn. rewrite Z.div_1_r in Hn. lia.
Qed.

(** ** Distances *)

Lemma hypot_nonneg (x y : R) : 0 <= hypot x y.
Proof. apply sqrt_pos. Qed.

Lemma hypot_0_0 : hypot 0 0 = 0.
Proof. unfold hypot; replace (0 * 0 + 0 * 0) with 0 by ring; apply sqrt_0. Qed.

Lemma hypot_axis (x : R) : 0 <= x -> hypot x 0 = x.
Proof.
  intros H; unfold hypot; replace (x * x + 0 * 0) with (x * x) by ring.
  now apply sqrt_square.
Qed.

Lemma los_steps_small (px py ex ey : R) :
  hypot (ex - px) (ey - py) < 8 <-> (los_steps px py ex ey <= 1)%Z.
Proof.
  pose proof (hypot_nonneg (ex - px) (ey - py)) as H0.
  unfold los_steps. rewrite py_int_nonneg by lra.
  pose proof (Zfloor_bound (hypot (ex - px) (ey - py) / 4)) as [Ha Hb].
  split; intros H.
  - assert (Zfloor (hypot (ex - px) (ey - py) / 4) < 2)%Z; [| lia].
    apply lt_IZR; lra.
  - apply IZR_le in H. lra.
Qed.

(** ** Line of sight *)

Lemma los_loop_total (px py dx dy : R) (steps : Z) (l : list Z) :
  steps <> 0%Z -> exists b, los_loop px py dx dy steps l = Ok b.
Proof.
  intros Hs. assert (IZR steps <> 0) by (now apply not_0_IZR).
  induction l as [| step rest IH]; simpl.
  - now exists true.
  - rewrite !py_div_ok by assumption; simpl.
    destruct (can_move _ _); [exact IH | now exists false].
Qed.

(** [line_of_sight] is a total function: the division by [steps] is only
    reached inside the loop, where [steps >= 2]. *)
Lemma line_of_sight_total (px py ex ey : R) :
  exists b, line_of_sight px py ex ey = Ok b.
Proof.
  unfold line_of_sight.
  destruct (Z_le_gt_dec (los_steps px py ex ey) 1) as [H | H].
  - rewrite py_range_unit_nil by assumption. now exists true.
  - apply los_loop_total; lia.
Qed.

Lemma line_of_sight_few_steps (px py ex ey : R) :
  (los_steps px py ex ey <= 1)%Z -> line_of_sight px py ex ey = Ok true.
Proof.
  intros H; unfold line_of_sight. now rewrite py_range_unit_nil.
Qed.

(** ** Projection constants *)

Lemma half_FOV_bounds : 0 < FOV / 2 < PI / 2.
Proof. unfold FOV; generalize PI_RGT_0; lra. Qed.

Lemma DISTANCE_pos : 0 < DISTANCE.
Proof.
  unfold DISTANCE, NUM_RAYS.
  destruct half_FOV_bounds as [H1 H2].
  pose proof (tan_gt_0 (FOV / 2) H1 H2) as Ht.
  apply Rdiv_lt_0_compat; lra.
Qed.

Lemma PROJ_COEFF_pos : 0 < PROJ_COEFF.
Proof.
  unfold PROJ_COEFF, TILE_SIZE. generalize DISTANCE_pos; intros H.
  apply Rmult_lt_0_compat; lra.
Qed.

Lemma wall_height_ok (d : R) :
  0 <= d -> wall_height d = Ok (PROJ_COEFF / (d + 0.0001)).
Proof. intros H; unfold wall_height; apply py_div_ok; lra. Qed.

Lemma wall_height_antitone (d1 d2 : R) :
  0 <= d1 <= d2 -> PROJ_COEFF / (d2 + 0.0001) <= PROJ_COEFF / (d1 + 0.0001).
Proof.
  intros [H1 H2]. unfold Rdiv.
  apply Rmult_le_compat_l; [generalize PROJ_COEFF_pos; lra |].
  apply Rinv_le_contravar; lra.
Qed.

(** ** The march of one ray *)

Lemma py_range_ge (start stop step k : Z) :
  (0 <= step)%Z -> In k (py_range start stop step) -> (start <= k)%Z.
Proof.
  intros Hs; unfold py_range; rewrite in_map_iff; intros (n & <- & _). nia.
Qed.

Lemma depths_spaced : spaced 0 (py_range 0 MAX_DEPTH 4) = true.
Proof. vm_compute; reflexivity. Qed.

Lemma depths_length : Z.of_nat (length (py_range 0 MAX_DEPTH 4)) = (MAX_DEPTH / 4)%Z.
Proof. vm_compute; reflexivity. Qed.

Lemma cell_raise (j i : Z) (e : exn) : cell j i = Raise e -> e = IndexError.
Proof.
  unfold cell, py_getitem; intros H.
  repeat match type of H with
         | context [if ?b then _ else _] => destruct b; simpl in H
         | context [match nth_error ?l ?n with _ => _ end] =>
             destruct (nth_error l n); simpl in H
         end; congruence.
Qed.

Lemma cell_raise_out_of_range (j i : Z) (e : exn) :
  cell j i = Raise e -> ~ index_in_range (j, i).
Proof.
  intros H [Hi Hj]; simpl in Hi, Hj.
  destruct (cell_facts i j Hi Hj) as (v & Hc & _). congruence.
Qed.

(** Two samples at most 4 apart along a ray: from the interior square the
    next one is still on the map. *)
Lemma sample_near (p c : R) (d d' : Z) :
  (d <= d' <= d + 4)%Z -> -1 <= c <= 1 ->
  64 <= p + IZR d * c < 448 ->
  60 <= p + IZR d' * c < 452.
Proof.
  intros [H1 H2] Hc Hp. apply IZR_le in H1, H2. rewrite plus_IZR in H2. nra.
Qed.

Lemma index_near (x : R) :
  60 <= x < 452 -> (0 <= py_int (x / IZR TILE_SIZE) < 8)%Z.
Proof.
  intros H; unfold TILE_SIZE. split.
  - apply py_int_ge; [lia | lra].
  - apply py_int_lt; lra.
Qed.

Section March.

(** One ray: the observer's position and heading, the ray's own angle and
    its index. *)
Variables (pos : R * R) (angle cur : R) (ray : Z).

(** From a sample in an Empty cell the march never leaves the map: every
    later access is in range, and the march does not raise. *)
Lemma march_safe (depths : list Z) :
  forall d,
    spaced d depths = true ->
    can_move (fst pos + IZR d * cos cur) (snd pos + IZR d * sin cur) = true ->
    (forall depth, In depth depths ->
                   exists c, wall_column ray (IZR depth) angle cur = Ok c) ->
    Forall index_in_range (fst (march pos angle cur ray depths)) /\
    exists r, snd (march pos angle cur ray depths) = Ok r.
Proof.
  induction depths as [| d' rest IH]; intros d Hsp Hcm Hwc; simpl.
  - split; [constructor | now exists None].
  - simpl in Hsp. apply andb_true_iff in Hsp; destruct Hsp as [Hsp Hrest].
    apply andb_true_iff in Hsp; destruct Hsp as [Hlo Hhi].
    apply Z.leb_le in Hlo, Hhi.
    apply can_move_interior in Hcm; destruct Hcm as [Hx Hy].
    pose proof (sample_near _ _ d d' (conj Hlo Hhi) (COS_bound cur) Hx) as Hx'.
    pose proof (sample_near _ _ d d' (conj Hlo Hhi) (SIN_bound cur) Hy) as Hy'.
    pose proof (index_near _ Hx') as Hi.
    pose proof (index_near _ Hy') as Hj.
    destruct (cell_facts _ _ Hi Hj) as (v & Hc & Hv & _).
    rewrite Hc.
    assert (Hrange : index_in_range
              (py_int ((snd pos + IZR d' * sin cur) / IZR TILE_SIZE),
               py_int ((fst pos + IZR d' * cos cur) / IZR TILE_SIZE)))
      by (split; simpl; assumption).
    destruct Hv as [-> | ->]; simpl.
    + assert (Hcm' : can_move (fst pos + IZR d' * cos cur)
                              (snd pos + IZR d' * sin cur) = true)
        by (apply can_move_true; cbv zeta; auto).
      specialize (IH d' Hrest Hcm' (fun depth H => Hwc depth (or_intror H))).
      destruct (march pos angle cur ray rest) as [log r]; simpl in *.
      destruct IH as [IH1 IH2]. split; [constructor; assumption | assumption].
    + destruct (Hwc d' (or_introl eq_refl)) as [c Hcw]. rewrite Hcw; simpl.
      split; [constructor; [assumption | constructor] | eauto].
Qed.

(** However it stops, the march samples at most once per depth, and stops in
    one of the three ways. *)
Lemma march_outcome (depths : list Z) :
  (forall depth, In depth depths ->
                 exists c, wall_column ray (IZR depth) angle cur = Ok c) ->
  let m := march pos angle cur ray depths in
  (length (fst m) <= length depths)%nat /\
  (stops_at_wall m \/
   (length (fst m) = length depths /\ Forall not_wall (fst m) /\ snd m = Ok None) \/
   stops_on_fault m).
Proof.
  induction depths as [| d' rest IH]; intros Hwc; simpl.
  - split; [lia | right; left; repeat split; constructor].
  - set (j := py_int ((snd pos + IZR d' * sin cur) / IZR TILE_SIZE)).
    set (i := py_int ((fst pos + IZR d' * cos cur) / IZR TILE_SIZE)).
    destruct (cell j i) as [v | e] eqn:Hc.
    + destruct (v =? 1)%Z eqn:Hv.
      * apply Z.eqb_eq in Hv; subst v.
        destruct (Hwc d' (or_introl eq_refl)) as [c Hcw]. rewrite Hcw; simpl.
        split; [lia | left]. exists [], (j, i), c. repeat split; auto.
      * apply Z.eqb_neq in Hv.
        assert (Hnw : not_wall (j, i)) by (exists v; auto).
        specialize (IH (fun depth H => Hwc depth (or_intror H))).
        cbv zeta in IH.
        destruct (march pos angle cur ray rest) as [log r]; simpl in *.
        destruct IH as [IHlen IH]. split; [lia |].
        destruct IH as [(pre & ji & c & E & Hpre & Hw & Hr)
                       | [(Hl & Hall & Hr) | (pre & ji & E & Hpre & Hf & Ho & Hr)]].
        -- left. exists ((j, i) :: pre), ji, c. simpl in *; subst log.
           repeat split; auto.
        -- right; left. simpl in *. repeat split; auto.
        -- right; right. exists ((j, i) :: pre), ji. simpl in *; subst log.
           repeat split; auto.
    + pose proof (cell_raise _ _ _ Hc) as ->. simpl.
      split; [lia | right; right]. exists [], (j, i).
      repeat split; auto. eapply cell_raise_out_of_range; eauto.
Qed.

End March.

(** ** All the rays *)

(** The fish-eye angle of a ray of the fan stays within a sixth of a turn. *)
Lemma fisheye_angle_bounds (angle : R) (ray : Z) :
  (0 <= ray < NUM_RAYS)%Z ->
  - (PI / 2) < angle - (angle - FOV / 2 + IZR ray * DELTA_ANGLE) < PI / 2.
Proof.
  intros [H0 H1]. unfold NUM_RAYS in H1.
  assert (H1' : (ray <= 239)%Z) by lia.
  apply IZR_le in H0, H1'.
  unfold DELTA_ANGLE, FOV, NUM_RAYS.
  pose proof PI_RGT_0 as Hpi.
  split; nra.
Qed.

Lemma wall_column_ok (ray : Z) (depth angle : R) :
  (0 <= ray < NUM_RAYS)%Z -> 0 <= depth ->
  exists c,
    wall_column ray depth angle (angle - FOV / 2 + IZR ray * DELTA_ANGLE) = Ok c.
Proof.
  intros Hray Hd.
  destruct (fisheye_angle_bounds angle ray Hray) as [Ha Hb].
  pose proof (cos_gt_0 _ Ha Hb) as Hcos.
  unfold wall_column.
  set (d := depth * cos (angle - (angle - FOV / 2 + IZR ray * DELTA_ANGLE))).
  assert (Hd' : 0 <= d) by (apply Rmult_le_pos; lra).
  rewrite wall_height_ok by assumption; simpl.
  rewrite py_div_ok by nra; simpl.
  eexists; reflexivity.
Qed.

Lemma cast_ray_columns (angle : R) (ray : Z) :
  (0 <= ray < NUM_RAYS)%Z ->
  forall depth, In depth (py_range 0 MAX_DEPTH 4) ->
    exists c, wall_column ray (IZR depth) angle
                (angle - FOV / 2 + IZR ray * DELTA_ANGLE) = Ok c.
Proof.
  intros Hray depth Hin. apply wall_column_ok; [assumption |].
  apply py_range_ge in Hin; [| lia]. now apply IZR_le in Hin.
Qed.

Lemma cast_ray_safe (pos : R * R) (angle : R) (ray : Z) :
  in_empty_cell pos -> (0 <= ray < NUM_RAYS)%Z ->
  Forall index_in_range (fst (cast_ray pos angle ray)) /\
  exists r, snd (cast_ray pos angle ray) = Ok r.
Proof.
  intros Hpos Hray. unfold cast_ray; cbv zeta.
  apply (march_safe _ _ _ _ _ 0%Z).
  - exact depths_spaced.
  - unfold in_empty_cell in Hpos.
    replace (fst pos + 0 * _) with (fst pos) by ring.
    replace (snd pos + 0 * _) with (snd pos) by ring.
    assumption.
  - now apply cast_ray_columns.
Qed.

Lemma cast_rays_safe (pos : R * R) (angle : R) (rays : list Z) :
  in_empty_cell pos ->
  Forall (fun ray => (0 <= ray < NUM_RAYS)%Z) rays ->
  Forall index_in_range (fst (cast_rays pos angle rays)) /\
  exists cols, snd (cast_rays pos angle rays) = Ok cols.
Proof.
  intros Hpos Hrays. induction Hrays as [| ray rest Hray Hrest IH]; simpl.
  - split; [constructor | now exists []].
  - destruct (cast_ray_safe pos angle ray Hpos Hray) as [Hlog [c Hc]].
    destruct (cast_ray pos angle ray) as [log r]; simpl in *; subst r.
    destruct (cast_rays pos angle rest) as [log' r']; simpl in *.
    destruct IH as [IHlog [cols ->]]. split.
    + apply Forall_app; auto.
    + simpl; eauto.
Qed.

Lemma rays_in_range : Forall (fun ray => (0 <= ray < NUM_RAYS)%Z) (py_range 0 NUM_RAYS 1).
Proof. apply Forall_forall; intros ray H. now apply py_range_In in H. Qed.

(** From a position in an Empty cell [ray_casting] only ever reads cells of
    the map, and returns. *)
Lemma ray_casting_safe (pos : R * R) (angle : R) :
  in_empty_cell pos ->
  Forall index_in_range (fst (ray_casting pos angle)) /\
  exists cols, snd (ray_casting pos angle) = Ok cols.
Proof.
  intros Hpos. unfold ray_casting. apply cast_rays_safe; [assumption |].
  exact rays_in_range.
Qed.

(** How the march of a ray of the fan stops. *)
Lemma cast_ray_outcome (pos : R * R) (angle : R) (ray : Z) :
  (0 <= ray < NUM_RAYS)%Z ->
  let m := cast_ray pos angle ray in
  (Z.of_nat (length (fst m)) <= MAX_DEPTH / 4)%Z /\
  (stops_at_wall m \/ stops_exhausted m \/ stops_on_fault m).
Proof.
  intros Hray.
  pose proof (march_outcome pos angle (angle - FOV / 2 + IZR ray * DELTA_ANGLE)
                ray _ (cast_ray_columns angle ray Hray)) as H.
  cbv zeta in H |- *. unfold cast_ray; cbv zeta.
  destruct H as [Hlen H]. rewrite <- depths_length. split; [lia |].
  destruct H as [H | [(Hl & Hall & Hr) | H]]; auto.
  right; left. unfold stops_exhausted. rewrite Hl. auto using depths_length.
Qed.

(** The first sample of every ray is the position itself. *)
Lemma py_range_depths_head :
  py_range 0 MAX_DEPTH 4 = 0%Z :: tl (py_range 0 MAX_DEPTH 4).
Proof. vm_compute; reflexivity. Qed.

Lemma py_range_rays_head :
  py_range 0 NUM_RAYS 1 = 0%Z :: tl (py_range 0 NUM_RAYS 1).
Proof. vm_compute; reflexivity. Qed.

Lemma cast_ray_first_sample_fault (pos : R * R) (angle : R) (ray : Z) (i j : Z) :
  py_int (fst pos / IZR TILE_SIZE) = i ->
  py_int (snd pos / IZR TILE_SIZE) = j ->
  cell j i = Raise IndexError ->
  cast_ray pos angle ray = ([(j, i)], Raise IndexError).
Proof.
  intros Hi Hj Hc. unfold cast_ray; cbv zeta.
  rewrite py_range_depths_head; simpl march.
  replace (fst pos + 0 * _) with (fst pos) by ring.
  replace (snd pos + 0 * _) with (snd pos) by ring.
  rewrite Hi, Hj, Hc. reflexivity.
Qed.

(** ** Player movement *)

Lemma move_forward_cases (st : state) :
  let new_x := fst (player_pos st) + player_speed * cos (player_angle st) in
  let new_y := snd (player_pos st) + player_speed * sin (player_angle st) in
  (can_move new_x new_y = true /\
   move_forward st = mkState (new_x, new_y) (player_angle st) (enemies st)) \/
  (can_move new_x new_y = false /\ move_forward st = st).
Proof.
  cbv zeta; unfold move_forward; cbv zeta.
  destruct (can_move _ _); [left | right]; split; reflexivity.
Qed.

Lemma move_backward_cases (st : state) :
  let new_x := fst (player_pos st) - player_speed * cos (player_angle st) in
  let new_y := snd (player_pos st) - player_speed * sin (player_angle st) in
  (can_move new_x new_y = true /\
   move_backward st = mkState (new_x, new_y) (player_angle st) (enemies st)) \/
  (can_move new_x new_y = false /\ move_backward st = st).
Proof.
  cbv zeta; unfold move_backward; cbv zeta.
  destruct (can_move _ _); [left | right]; split; reflexivity.
Qed.

(** What a move leaves alone, and how far it can take the player. *)
Lemma move_forward_frame (st : state) :
  player_angle (move_forward st) = player_angle st /\
  enemies (move_forward st) = enemies st /\
  (in_empty_cell (player_pos st) -> in_empty_cell (player_pos (move_forward st))) /\
  - 2 <= fst (player_pos (move_forward st)) - fst (player_pos st) <= 2 /\
  - 2 <= snd (player_pos (move_forward st)) - snd (player_pos st) <= 2.
Proof.
  pose proof (COS_bound (player_angle st)) as Hc.
  pose proof (SIN_bound (player_angle st)) as Hs.
  destruct (move_forward_cases st) as [[Hm ->] | [Hm ->]]; simpl;
    unfold player_speed; repeat split; auto; lra.
Qed.

Lemma move_backward_frame (st : state) :
  player_angle (move_backward st) = player_angle st /\
  enemies (move_backward st) = enemies st /\
  (in_empty_cell (player_pos st) -> in_empty_cell (player_pos (move_backward st))) /\
  - 2 <= fst (player_pos (move_backward st)) - fst (player_pos st) <= 2 /\
  - 2 <= snd (player_pos (move_backward st)) - snd (player_pos st) <= 2.
Proof.
  pose proof (COS_bound (player_angle st)) as Hc.
  pose proof (SIN_bound (player_angle st)) as Hs.
  destruct (move_backward_cases st) as [[Hm ->] | [Hm ->]]; simpl;
    unfold player_speed; repeat split; auto; lra.
Qed.

Lemma movement_frame (ks : keys) (st : state) :
  enemies (movement ks st) = enemies st /\
  (in_empty_cell (player_pos st) -> in_empty_cell (player_pos (movement ks st))) /\
  - 4 <= fst (player_pos (movement ks st)) - fst (player_pos st) <= 4 /\
  - 4 <= snd (player_pos (movement ks st)) - snd (player_pos st) <= 4.
Proof.
  unfold movement; cbv zeta.
  set (s1 := if K_a ks then turn_left st else st).
  set (s2 := if K_d ks then turn_right s1 else s1).
  set (s3 := if K_w ks then move_forward s2 else s2).
  assert (E1 : player_pos s1 = player_pos st /\ enemies s1 = enemies st)
    by (subst s1; destruct (K_a ks); auto).
  assert (E2 : player_pos s2 = player_pos st /\ enemies s2 = enemies st)
    by (subst s2; destruct (K_d ks); auto).
  destruct E2 as [P2 N2].
  destruct (move_forward_frame s2) as (_ & N3 & I3 & X3 & Y3).
  assert (F3 : enemies s3 = enemies st /\
               (in_empty_cell (player_pos st) -> in_empty_cell (player_pos s3)) /\
               - 2 <= fst (player_pos s3) - fst (player_pos st) <= 2 /\
               - 2 <= snd (player_pos s3) - snd (player_pos st) <= 2).
  { subst s3; destruct (K_w ks).
    - rewrite <- P2, <- N2. auto.
    - rewrite P2, N2. repeat split; auto; lra. }
  destruct F3 as (N3' & I3' & X3' & Y3').
  destruct (move_backward_frame s3) as (_ & N4 & I4 & X4 & Y4).
  destruct (K_s ks).
  - repeat split; try congruence; auto; lra.
  - repeat split; auto; lra.
Qed.

(** ** Enemy pursuit *)

(** The inline guard of [move_toward_player] is the test of [can_move]. *)
Lemma move_toward_player_cases (pos : R * R) (self : Enemy) :
  let angle := atan2 (snd pos - enemy_y self) (fst pos - enemy_x self) in
  let new_x := enemy_x self + 0.5 * cos angle in
  let new_y := enemy_y self + 0.5 * sin angle in
  (can_move new_x new_y = true /\
   move_toward_player pos self = mkEnemy new_x new_y (alive self)) \/
  (can_move new_x new_y = false /\ move_toward_player pos self = self).
Proof.
  cbv zeta; unfold move_toward_player, can_move; cbv zeta.
  destruct (in_grid _ _) eqn:G; [| right; auto].
  destruct (cell_in_grid _ _ G) as (v & -> & _).
  destruct (v =? 0)%Z; [left | right]; auto.
Qed.

Lemma move_toward_player_empty (pos : R * R) (self : Enemy) :
  in_empty_cell (enemy_x self, enemy_y self) ->
  in_empty_cell (enemy_x (move_toward_player pos self),
                 enemy_y (move_toward_player pos self)).
Proof.
  intros H.
  destruct (move_toward_player_cases pos self) as [[Hm ->] | [_ ->]]; auto.
Qed.

(** ** Shooting *)

Lemma shoot_dead (pos : R * R) (heading : R) (enemy : Enemy) :
  alive enemy = false -> shoot pos heading enemy = enemy.
Proof. intros H; unfold shoot; now rewrite H. Qed.

Lemma shoot_position (pos : R * R) (heading : R) (enemy : Enemy) :
  enemy_x (shoot pos heading enemy) = enemy_x enemy /\
  enemy_y (shoot pos heading enemy) = enemy_y enemy.
Proof.
  unfold shoot. destruct (alive enemy); [| auto].
  destruct (_ && _); auto.
Qed.

Lemma shoot_alive (pos : R * R) (heading : R) (enemy : Enemy) :
  alive (shoot pos heading enemy) = true -> alive enemy = true.
Proof.
  unfold shoot. destruct (alive enemy) eqn:E; [reflexivity |].
  now rewrite E.
Qed.

(** The hit test of one shot at an alive enemy. *)
Lemma shoot_hit_iff (pos : R * R) (heading : R) (enemy : Enemy) :
  alive enemy = true ->
  (alive (shoot pos heading enemy) = false <->
   angle_diff (atan2 (enemy_y enemy - snd pos) (enemy_x enemy - fst pos)) heading < 0.1
   /\ distance_to_player pos enemy < 300).
Proof.
  intros Ha. unfold shoot. rewrite Ha.
  destruct (Rltb (angle_diff _ _) 0.1) eqn:E1;
    destruct (Rltb (distance_to_player pos enemy) 300) eqn:E2; simpl;
    rewrite ?Rltb_true, ?Rltb_false in *;
    split; try (intros _; split; assumption); try reflexivity;
    try (intros [? ?]; lra); try congruence.
Qed.

Lemma hypot_sym (a b c d : R) : hypot (a - b) (c - d) = hypot (b - a) (d - c).
Proof. unfold hypot; f_equal; ring. Qed.

Lemma fire_nth (st : state) (k : nat) :
  nth_error (enemies (fire st)) k =
  option_map (shoot (player_pos st) (player_angle st)) (nth_error (enemies st) k).
Proof. unfold fire; simpl. apply nth_error_map. Qed.

Lemma shooting_frame (ks : keys) (st : state) :
  player_pos (shooting ks st) = player_pos st /\
  player_angle (shooting ks st) = player_angle st /\
  length (enemies (shooting ks st)) = length (enemies st) /\
  forall k e, nth_error (enemies st) k = Some e ->
    exists e', nth_error (enemies (shooting ks st)) k = Some e' /\
               enemy_x e' = enemy_x e /\ enemy_y e' = enemy_y e /\
               (alive e' = true -> alive e = true) /\
               (alive e = false -> e' = e).
Proof.
  unfold shooting. destruct (K_SPACE ks).
  - split; [reflexivity |]. split; [reflexivity |].
    split; [unfold fire; simpl; apply length_map |].
    intros k e Hk. rewrite fire_nth, Hk; simpl.
    eexists; split; [reflexivity |].
    destruct (shoot_position (player_pos st) (player_angle st) e) as [Hx Hy].
    split; [assumption |]. split; [assumption |].
    split; [apply shoot_alive | apply shoot_dead].
  - split; [reflexivity |]. split; [reflexivity |]. split; [reflexivity |].
    intros k e Hk; exists e; auto.
Qed.

(** ** Drawing and stepping the enemies *)

Lemma draw_dead (pos : R * R) (heading : R) (self : Enemy) :
  alive self = false -> draw pos heading self = Ok None.
Proof. intros H; unfold draw; now rewrite H. Qed.

Lemma draw_total (pos : R * R) (heading : R) (self : Enemy) :
  exists d, draw pos heading self = Ok d.
Proof.
  unfold draw. destruct (negb (alive self)); [now exists None |].
  destruct (line_of_sight_total (fst pos) (snd pos) (enemy_x self) (enemy_y self))
    as [b ->]; simpl.
  destruct (negb b); [now exists None |].
  destruct (_ && _); [| now exists None].
  rewrite py_div_ok; [simpl; eauto |].
  generalize (hypot_nonneg (enemy_x self - fst pos) (enemy_y self - snd pos)); lra.
Qed.

Lemma enemy_step_dead (pos : R * R) (heading : R) (enemy : Enemy) :
  alive enemy = false -> enemy_step pos heading enemy = Ok (enemy, None).
Proof.
  intros H; unfold enemy_step. rewrite H. now rewrite draw_dead.
Qed.

Lemma enemy_step_cases (pos : R * R) (heading : R) (enemy : Enemy) :
  exists d,
    enemy_step pos heading enemy =
    Ok (if alive enemy then move_toward_player pos enemy else enemy, d).
Proof.
  unfold enemy_step.
  destruct (draw_total pos heading
              (if alive enemy then move_toward_player pos enemy else enemy))
    as [d ->]; simpl; eauto.
Qed.

Lemma enemy_steps_nth (pos : R * R) (heading : R) (es : list Enemy) :
  exists es' ds,
    enemy_steps pos heading es = Ok (es', ds) /\
    length es' = length es /\
    forall k e, nth_error es k = Some e ->
      exists d, enemy_step pos heading e = Ok (nth k es' e, d) /\
                nth_error es' k = Some (nth k es' e) /\
                nth_error ds k = Some d.
Proof.
  induction es as [| e0 rest IH]; simpl.
  - exists [], []; repeat split. intros k e H; destruct k; discriminate.
  - destruct (enemy_step_cases pos heading e0) as [d0 H0].
    destruct IH as (es' & ds & Hs & Hlen & Hnth).
    rewrite H0, Hs; simpl.
    eexists; eexists; split; [reflexivity |]. split; [simpl; congruence |].
    intros [| k] e Hk; simpl in *.
    + inversion Hk; subst e. exists d0; auto.
    + apply Hnth; assumption.
Qed.

(** ** One frame *)

(** What a frame that returned did, step by step. *)
Lemma frame_inv (ks : keys) (st st' : state) (out : frame_out) :
  frame ks st = Ok (st', out) ->
  let st1 := shooting ks (movement ks st) in
  player_pos st' = player_pos st1 /\
  player_angle st' = player_angle st1 /\
  snd (ray_casting (player_pos st1) (player_angle st1)) = Ok (walls out) /\
  enemy_steps (player_pos st1) (player_angle st1) (enemies st1)
  = Ok (enemies st', sprites out).
Proof.
  unfold frame; cbv zeta.
  set (st1 := shooting ks (movement ks st)).
  destruct (snd (ray_casting _ _)) as [ws | e]; simpl; [| discriminate].
  destruct (enemy_steps _ _ _) as [[es ds] | e]; simpl; [| discriminate].
  intros H; inversion H; subst; simpl. auto.
Qed.

(** A frame started with the player in an Empty cell returns. *)
Lemma frame_total (ks : keys) (st : state) :
  in_empty_cell (player_pos st) -> exists st' out, frame ks st = Ok (st', out).
Proof.
  intros Hpos. unfold frame; cbv zeta.
  set (st1 := shooting ks (movement ks st)).
  assert (H1 : in_empty_cell (player_pos st1)).
  { subst st1. destruct (shooting_frame ks (movement ks st)) as (-> & _).
    now apply movement_frame. }
  destruct (ray_casting_safe _ (player_angle st1) H1) as (_ & cols & ->); simpl.
  destruct (enemy_steps_nth (player_pos st1) (player_angle st1) (enemies st1))
    as (es' & ds & -> & _); simpl.
  eauto.
Qed.

(** What a frame does to the enemy in slot [k] of the roster. *)
Lemma frame_enemy (ks : keys) (st st' : state) (out : frame_out) :
  frame ks st = Ok (st', out) ->
  length (enemies st') = length (enemies st) /\
  forall k e, nth_error (enemies st) k = Some e ->
    exists e1 e' d,
      enemy_x e1 = enemy_x e /\ enemy_y e1 = enemy_y e /\
      (alive e1 = true -> alive e = true) /\
      (alive e = false -> e1 = e) /\
      nth_error (enemies st') k = Some e' /\
      nth_error (sprites out) k = Some d /\
      e' = (if alive e1 then move_toward_player (player_pos st') e1 else e1) /\
      draw (player_pos st') (player_angle st') e' = Ok d.
Proof.
  intros H. apply frame_inv in H; cbv zeta in H.
  destruct H as (Hp & Ha & _ & Hs).
  set (st1 := shooting ks (movement ks st)) in *.
  destruct (shooting_frame ks (movement ks st)) as (_ & _ & Hlen1 & Hsh).
  destruct (movement_frame ks st) as (Hmv & _).
  rewrite Hmv in Hlen1, Hsh. fold st1 in Hlen1, Hsh.
  destruct (enemy_steps_nth (player_pos st1) (player_angle st1) (enemies st1))
    as (es' & ds & Hs' & Hlen & Hnth).
  rewrite Hs in Hs'. inversion Hs'; subst es' ds; clear Hs'.
  split; [congruence |].
  intros k e Hk.
  destruct (Hsh k e Hk) as (e1 & Hk1 & Hx & Hy & Hal & Hdead).
  destruct (Hnth k e1 Hk1) as (d & Hstep & Hk' & Hd).
  exists e1, (nth k (enemies st') e1), d.
  repeat (split; [assumption |]).
  rewrite Hp, Ha.
  unfold enemy_step in Hstep.
  destruct (draw (player_pos st1) (player_angle st1)
              (if alive e1 then move_toward_player (player_pos st1) e1 else e1))
    as [d' | err] eqn:Hdraw; simpl in Hstep; [| discriminate].
  injection Hstep as He' Hd'. subst d'.
  split; [symmetry; exact He' | rewrite <- He'; exact Hdraw].
Qed.

(** ** Dead enemies *)

Lemma frame_dead (ks : keys) (st st' : state) (out : frame_out) (k : nat) (e : Enemy) :
  frame ks st = Ok (st', out) ->
  nth_error (enemies st) k = Some e -> alive e = false ->
  nth_error (enemies st') k = Some e /\ nth_error (sprites out) k = Some None.
Proof.
  intros H Hk Hdead.
  destruct (frame_enemy ks st st' out H) as (_ & Hen).
  destruct (Hen k e Hk) as (e1 & e' & d & _ & _ & _ & He1 & Hk' & Hd & He' & Hdraw).
  rewrite (He1 Hdead) in He'. rewrite Hdead in He'. subst e'.
  rewrite draw_dead in Hdraw by assumption. inversion Hdraw; subst d. auto.
Qed.

Lemma run_dead (inputs : list keys) :
  forall (st st' : state) (outs : list frame_out) (k : nat) (e : Enemy),
    run inputs st = Ok (st', outs) ->
    nth_error (enemies st) k = Some e -> alive e = false ->
    nth_error (enemies st') k = Some e /\
    Forall (fun out => nth_error (sprites out) k = Some None) outs.
Proof.
  induction inputs as [| ks rest IH]; intros st st' outs k e Hrun Hk Hdead;
    simpl in Hrun.
  - inversion Hrun; subst. split; [assumption | constructor].
  - destruct (frame ks st) as [[st1 out] | err] eqn:Hf; simpl in Hrun; [| discriminate].
    destruct (run rest st1) as [[st2 outs2] | err] eqn:Hr; simpl in Hrun; [| discriminate].
    inversion Hrun; subst st' outs; clear Hrun.
    destruct (frame_dead ks st st1 out k e Hf Hk Hdead) as [Hk1 Hout].
    destruct (IH st1 st2 outs2 k e Hr Hk1 Hdead) as [Hk2 Hall].
    split; [assumption | constructor; assumption].
Qed.

Lemma run_total (inputs : list keys) :
  forall st, in_empty_cell (player_pos st) ->
    exists st' outs, run inputs st = Ok (st', outs).
Proof.
  induction inputs as [| ks rest IH]; intros st Hpos; simpl.
  - eauto.
  - destruct (frame_total ks st Hpos) as (st1 & out & Hf). rewrite Hf; simpl.
    assert (H1 : in_empty_cell (player_pos st1)).
    { apply frame_inv in Hf; cbv zeta in Hf. destruct Hf as (-> & _).
      destruct (shooting_frame ks (movement ks st)) as (-> & _).
      now apply movement_frame. }
    destruct (IH st1 H1) as (st2 & outs & ->); simpl. eauto.
Qed.

(** ** Angles *)

Lemma atan_pos (t : R) : 0 < t -> 0 < atan t < PI / 2.
Proof.
  intros Ht. split.
  - rewrite <- atan_0. now apply atan_increasing.
  - apply atan_bound.
Qed.

(** The direction towards a target that is to the lower left. *)
Lemma atan2_third_quadrant (y x : R) :
  x < 0 -> y < 0 -> - PI < atan2 y x < - (PI / 2).
Proof.
  intros Hx Hy. unfold atan2.
  destruct (Rlt_dec 0 x); [lra |].
  destruct (Rlt_dec x 0); [| lra].
  destruct (Rle_dec 0 y); [lra |].
  assert (Ht : 0 < y / x).
  { unfold Rdiv. pose proof (Rinv_neg x Hx). nra. }
  destruct (atan_pos _ Ht). lra.
Qed.

Lemma third_quadrant_cos_sin (a : R) :
  - PI < a < - (PI / 2) -> -1 <= cos a < 0 /\ -1 <= sin a < 0.
Proof.
  intros [H1 H2].
  pose proof (neg_cos a) as Hc. pose proof (neg_sin a) as Hs.
  assert (0 < cos (a + PI)) by (apply cos_gt_0; lra).
  assert (0 < sin (a + PI)) by (apply sin_gt_0; lra).
  pose proof (COS_bound a). pose proof (SIN_bound a). lra.
Qed.

(** ** The soft invariant *)

Lemma can_move_player_start : can_move 96 96 = true.
Proof. in_tile 1%Z 1%Z. Qed.

Lemma can_move_first_enemy : can_move 320 320 = false.
Proof. in_tile 5%Z 5%Z. Qed.

Lemma can_move_second_enemy : can_move 192 384 = true.
Proof. in_tile 3%Z 6%Z. Qed.

(** An enemy on the corner point (320, 320) that pursues a player to its
    lower left steps into the Empty cell (4, 4). *)
Lemma pursue_from_corner (pos : R * R) (self : Enemy) :
  fst pos < 320 -> snd pos < 320 ->
  enemy_x self = 320 -> enemy_y self = 320 ->
  in_empty_cell (enemy_x (move_toward_player pos self),
                 enemy_y (move_toward_player pos self)).
Proof.
  intros Hpx Hpy Hx Hy.
  pose proof (move_toward_player_cases pos self) as H; cbv zeta in H.
  rewrite Hx, Hy in H.
  set (a := atan2 (snd pos - 320) (fst pos - 320)) in *.
  assert (Ha : - PI < a < - (PI / 2)) by (apply atan2_third_quadrant; lra).
  destruct (third_quadrant_cos_sin a Ha) as [Hc Hs].
  assert (Hm : can_move (320 + 0.5 * cos a) (320 + 0.5 * sin a) = true)
    by (in_tile 4%Z 4%Z).
  destruct H as [[_ ->] | [Hf _]]; [exact Hm | congruence].
Qed.

(** An enemy alive after a frame was alive before it and has just made its
    pursuit step from where it stood. *)
Lemma frame_keeps_live (ks : keys) (st st' : state) (out : frame_out) :
  frame ks st = Ok (st', out) ->
  forall e', In e' (enemies st') -> alive e' = true ->
    exists e e1,
      In e (enemies st) /\ alive e = true /\
      enemy_x e1 = enemy_x e /\ enemy_y e1 = enemy_y e /\
      e' = move_toward_player (player_pos st') e1.
Proof.
  intros H e' Hin Hal.
  destruct (frame_enemy ks st st' out H) as (Hlen & Hen).
  apply In_nth_error in Hin; destruct Hin as [k Hk'].
  assert (Hlt : (k < length (enemies st))%nat).
  { rewrite <- Hlen. apply nth_error_Some. congruence. }
  destruct (nth_error (enemies st) k) as [e |] eqn:Hk;
    [| apply nth_error_None in Hk; lia].
  destruct (Hen k e Hk) as (e1 & e'' & d & Hx & Hy & Ha1 & _ & Hk'' & _ & He'' & _).
  rewrite Hk' in Hk''. inversion Hk''; subst e''; clear Hk''.
  destruct (alive e1) eqn:A1.
  - exists e, e1. repeat split; auto. eapply nth_error_In; eauto.
  - subst e'. congruence.
Qed.

Lemma frame_player_empty (ks : keys) (st st' : state) (out : frame_out) :
  frame ks st = Ok (st', out) ->
  player_pos st' = player_pos (movement ks st) /\
  (in_empty_cell (player_pos st) -> in_empty_cell (player_pos st')).
Proof.
  intros H. apply frame_inv in H; cbv zeta in H. destruct H as (Hp & _).
  destruct (shooting_frame ks (movement ks st)) as (Hs & _).
  rewrite Hs in Hp. split; [assumption |].
  rewrite Hp. apply movement_frame.
Qed.

(** Frames preserve the invariant. *)
Lemma frame_preserves_live (ks : keys) (st st' : state) (out : frame_out) :
  frame ks st = Ok (st', out) ->
  live_in_empty_cells st -> live_in_empty_cells st'.
Proof.
  intros H [Hp He]. split.
  - now apply (frame_player_empty ks st st' out H).
  - intros e' Hin Hal.
    destruct (frame_keeps_live ks st st' out H e' Hin Hal)
      as (e & e1 & Hin0 & Hal0 & Hx & Hy & ->).
    apply move_toward_player_empty. rewrite Hx, Hy. now apply He.
Qed.

(** The first frame establishes it. *)
Lemma first_frame_live (ks : keys) (st' : state) (out : frame_out) :
  frame ks state0 = Ok (st', out) -> live_in_empty_cells st'.
Proof.
  intros H.
  destruct (frame_player_empty ks state0 st' out H) as [Hp Hpe].
  assert (Hp0 : in_empty_cell (player_pos state0)) by exact can_move_player_start.
  split; [auto |].
  intros e' Hin Hal.
  destruct (frame_keeps_live ks state0 st' out H e' Hin Hal)
    as (e & e1 & Hin0 & Hal0 & Hx & Hy & ->).
  destruct Hin0 as [<- | [<- | []]].
  - destruct (movement_frame ks state0) as (_ & _ & Bx & By).
    rewrite <- Hp in Bx, By.
    change (fst (player_pos state0)) with 96 in Bx.
    change (snd (player_pos state0)) with 96 in By.
    change (enemy_x (mkEnemy (IZR (5 * TILE_SIZE)) (IZR (5 * TILE_SIZE)) true))
      with 320 in Hx.
    change (enemy_y (mkEnemy (IZR (5 * TILE_SIZE)) (IZR (5 * TILE_SIZE)) true))
      with 320 in Hy.
    apply pursue_from_corner; auto; lra.
  - apply move_toward_player_empty. rewrite Hx, Hy.
    exact can_move_second_enemy.
Qed.

Lemma reachable_live (st : state) :
  reachable st -> st = state0 \/ live_in_empty_cells st.
Proof.
  induction 1 as [| st ks st' out Hr IH Hf]; [now left | right].
  destruct IH as [-> | IH].
  - eapply first_frame_live; eauto.
  - eapply frame_preserves_live; eauto.
Qed.

Lemma reachable_player_empty (st : state) :
  reachable st -> in_empty_cell (player_pos st).
Proof.
  intros H. destruct (reachable_live st H) as [-> | [Hp _]];
    [exact can_move_player_start | assumption].
Qed.

(** ** The angular window *)

Lemma PI_gt_3 : 3 < PI.
Proof. generalize PI2_3_2; lra. Qed.

Lemma Zfloor_unit_fraction (a b : R) : 0 < b -> 0 <= a < b -> Zfloor (a / b) = 0%Z.
Proof.
  intros Hb Ha. apply Zfloor_eq. simpl.
  assert (E : a / b * b = a) by (field; lra).
  split; nra.
Qed.

Lemma py_mod_small (a b : R) : 0 < b -> 0 <= a < b -> py_mod a b = a.
Proof.
  intros Hb Ha. unfold py_mod. rewrite Zfloor_unit_fraction by assumption.
  simpl; ring.
Qed.

Lemma py_mod_range (a b : R) : 0 < b -> 0 <= py_mod a b < b.
Proof.
  intros Hb. unfold py_mod.
  destruct (Zfloor_bound (a / b)) as [H1 H2].
  assert (E : a / b * b = a) by (field; lra).
  split; nra.
Qed.

(** The wrapped difference lies in [[-PI, PI)]; the end that is included is
    [-PI]. *)
Lemma wrapped_difference_range (d : R) :
  - PI <= py_mod (d + PI) (2 * PI) - PI < PI.
Proof.
  assert (Hb : 0 < 2 * PI) by (generalize PI_RGT_0; lra).
  generalize (py_mod_range (d + PI) (2 * PI) Hb); lra.
Qed.

Lemma wrapped_difference_at_PI : py_mod (PI + PI) (2 * PI) - PI = - PI.
Proof.
  unfold py_mod.
  replace ((PI + PI) / (2 * PI)) with 1 by (field; apply PI_neq0).
  rewrite ZfloorZ. ring.
Qed.

Lemma angle_diff_direct (angle heading : R) :
  - PI <= angle - heading < PI ->
  angle_diff angle heading = Rabs (angle - heading).
Proof.
  intros H. unfold angle_diff.
  rewrite py_mod_small by lra. f_equal; ring.
Qed.

Lemma atan2_polar (r t : R) :
  0 < r -> - (PI / 2) < t < PI / 2 -> atan2 (r * sin t) (r * cos t) = t.
Proof.
  intros Hr [H1 H2].
  pose proof (cos_gt_0 t H1 H2) as Hc.
  unfold atan2. destruct (Rlt_dec 0 (r * cos t)) as [_ | H]; [| exfalso; nra].
  replace (r * sin t / (r * cos t)) with (tan t) by (unfold tan; field; lra).
  apply atan_tan; lra.
Qed.

Lemma hypot_polar (r t : R) : 0 <= r -> hypot (r * cos t) (r * sin t) = r.
Proof.
  intros Hr. unfold hypot.
  pose proof (sin2_cos2 t) as H; unfold Rsqr in H.
  replace (r * cos t * (r * cos t) + r * sin t * (r * sin t))
    with (r * r * (sin t * sin t + cos t * cos t)) by ring.
  rewrite H, Rmult_1_r. now apply sqrt_square.
Qed.

Lemma spec_wrap_half_open_range (d : R) : - PI < spec_wrap_half_open d <= PI.
Proof.
  unfold spec_wrap_half_open.
  assert (Hb : 0 < 2 * PI) by (generalize PI_RGT_0; lra).
  destruct (Zceil_bound ((d - PI) / (2 * PI))) as [H1 H2].
  assert (E : (d - PI) / (2 * PI) * (2 * PI) = d - PI) by (field; lra).
  split; nra.
Qed.

(** The program's wrapped difference and the representative in [(-PI, PI]]
    differ only where the difference is an odd multiple of [PI], and there
    only in sign: their magnitudes agree everywhere. *)
Lemma wrapped_magnitude_agrees (d : R) :
  Rabs (py_mod (d + PI) (2 * PI) - PI) = Rabs (spec_wrap_half_open d).
Proof.
  pose proof (wrapped_difference_range d) as HF.
  pose proof (spec_wrap_half_open_range d) as HW.
  pose proof PI_RGT_0 as Hpi.
  unfold py_mod, spec_wrap_half_open in *.
  set (m := Zfloor ((d + PI) / (2 * PI))) in *.
  set (k := Zceil ((d - PI) / (2 * PI))) in *.
  clearbody m k.
  assert (Hkm : (k - m = 0 \/ k - m = -1)%Z).
  { assert (H1 : (-2 < k - m)%Z).
    { apply lt_IZR. rewrite minus_IZR. nra. }
    assert (H2 : (k - m < 1)%Z).
    { apply lt_IZR. rewrite minus_IZR. nra. }
    lia. }
  destruct Hkm as [E | E].
  - assert (k = m) by lia. subst k. f_equal. ring.
  - assert (Ek : IZR k = IZR m - 1).
    { replace k with (m - 1)%Z by lia. now rewrite minus_IZR. }
    rewrite Ek in *.
    replace (d + PI - 2 * PI * IZR m - PI) with (- PI) by lra.
    replace (d - 2 * PI * (IZR m - 1)) with PI by lra.
    apply Rabs_Ropp.
Qed.

(** ** One shot *)

Lemma shoot_cases (pos : R * R) (heading : R) (enemy : Enemy) :
  alive enemy = true ->
  let d := angle_diff (atan2 (enemy_y enemy - snd pos) (enemy_x enemy - fst pos))
                      heading in
  (d < 0.1 /\ distance_to_player pos enemy < 300 /\
   shoot pos heading enemy = mkEnemy (enemy_x enemy) (enemy_y enemy) false) \/
  (~ (d < 0.1 /\ distance_to_player pos enemy < 300) /\
   shoot pos heading enemy = enemy).
Proof.
  intros Ha; cbv zeta. unfold shoot. rewrite Ha.
  destruct (Rltb (angle_diff _ _) 0.1) eqn:E1;
    destruct (Rltb (distance_to_player pos enemy) 300) eqn:E2; simpl;
    rewrite ?Rltb_true, ?Rltb_false in *;
    [left; auto | right; split; [lra | reflexivity] ..].
Qed.

(** An enemy placed at polar coordinates [(r, heading + off)] around the
    player, for a heading and an offset small enough to stay clear of the
    branch cut of [atan2]: its angular difference is the magnitude of the
    offset and its distance is [r]. *)
Lemma polar_enemy (pos : R * R) (heading off r : R) (a : bool) :
  0 < r -> -1 <= heading <= 1 -> -0.5 <= off <= 0.5 ->
  let enemy := mkEnemy (fst pos + r * cos (heading + off))
                       (snd pos + r * sin (heading + off)) a in
  angle_diff (atan2 (enemy_y enemy - snd pos) (enemy_x enemy - fst pos)) heading
  = Rabs off /\
  distance_to_player pos enemy = r.
Proof.
  intros Hr Hh Ho; cbv zeta; simpl.
  pose proof PI_gt_3 as Hpi.
  replace (snd pos + r * sin (heading + off) - snd pos)
    with (r * sin (heading + off)) by ring.
  replace (fst pos + r * cos (heading + off) - fst pos)
    with (r * cos (heading + off)) by ring.
  rewrite atan2_polar by lra. split.
  - rewrite angle_diff_direct by lra. f_equal; ring.
  - unfold distance_to_player; simpl.
    replace (fst pos - (fst pos + r * cos (heading + off)))
      with (0 - r * cos (heading + off)) by ring.
    replace (snd pos - (snd pos + r * sin (heading + off)))
      with (0 - r * sin (heading + off)) by ring.
    rewrite hypot_sym, !Rminus_0_r. apply hypot_polar; lra.
Qed.

(** ** A shot through a wall *)

Lemma los_loop_blocked (px py dx dy : R) (steps : Z) (pre post : list Z) (k : Z) :
  steps <> 0%Z ->
  (forall step, In step pre ->
     can_move (px + dx * IZR step / IZR steps) (py + dy * IZR step / IZR steps) = true) ->
  can_move (px + dx * IZR k / IZR steps) (py + dy * IZR k / IZR steps) = false ->
  los_loop px py dx dy steps (pre ++ k :: post) = Ok false.
Proof.
  intros Hs Hpre Hk. assert (IZR steps <> 0) by (now apply not_0_IZR).
  induction pre as [| step rest IH]; simpl.
  - rewrite !py_div_ok by assumption; simpl. now rewrite Hk.
  - rewrite !py_div_ok by assumption; simpl.
    rewrite (Hpre step (or_introl eq_refl)).
    apply IH. intros s Hin; apply Hpre; now right.
Qed.

(** Player in tile (1, 2), enemy in tile (3, 2), the wall tile (2, 2) between. *)
Lemma line_of_sight_across_wall : line_of_sight 96 160 224 160 = Ok false.
Proof.
  unfold line_of_sight; cbv zeta.
  assert (Hsteps : los_steps 96 160 224 160 = 32%Z).
  { unfold los_steps.
    replace (224 - 96) with 128 by lra. replace (160 - 160) with 0 by lra.
    rewrite hypot_axis by lra. apply py_int_eq; [lia | lra]. }
  rewrite Hsteps.
  replace (224 - 96) with 128 by lra. replace (160 - 160) with 0 by lra.
  change (py_range 1 32 1) with (py_range 1 8 1 ++ 8%Z :: py_range 9 32 1).
  apply los_loop_blocked; [lia | |].
  - intros step Hin. apply py_range_In in Hin. destruct Hin as [H1 H2].
    assert (H2' : (step <= 7)%Z) by lia.
    apply IZR_le in H1, H2'.
    in_tile 1%Z 2%Z.
  - in_tile 2%Z 2%Z.
Qed.

(** * The specification's claims *)

(** ** C2: everything outside the grid is solid *)

(** C2.  For every point outside the grid bounds -- [x < 0], [y < 0],
    [x >= MAP_WIDTH * TILE_SIZE] or [y >= MAP_HEIGHT * TILE_SIZE] --
    [can_move] returns false.  The index is derived with [int()], which
    truncates toward zero: a coordinate in [(-TILE_SIZE, 0)] gets index 0,
    where flooring would give -1; column 0 and row 0 being all wall, the
    answer is false all the same. *)
Theorem can_move_false_outside_grid :
  (forall x y : R,
      x < 0 \/ y < 0 \/
      IZR (MAP_WIDTH * TILE_SIZE) <= x \/ IZR (MAP_HEIGHT * TILE_SIZE) <= y ->
      can_move x y = false) /\
  (forall t : R,
      - IZR TILE_SIZE < t < 0 ->
      py_int (t / IZR TILE_SIZE) = 0%Z /\ Zfloor (t / IZR TILE_SIZE) = (-1)%Z).
Proof.
  split.
  - exact can_move_outside.
  - intros t Ht. unfold TILE_SIZE in *. split.
    + apply py_int_small_neg; lra.
    + apply Zfloor_eq; simpl; lra.
Qed.

Lemma can_move_false_outside_grid_witness :
  (-10 < 0 \/ 96 < 0 \/
   IZR (MAP_WIDTH * TILE_SIZE) <= -10 \/ IZR (MAP_HEIGHT * TILE_SIZE) <= 96) /\
  can_move (-10) 96 = false.
Proof.
  assert (H : -10 < 0 \/ 96 < 0 \/
              IZR (MAP_WIDTH * TILE_SIZE) <= -10 \/ IZR (MAP_HEIGHT * TILE_SIZE) <= 96)
    by (left; lra).
  split; [exact H | exact (proj1 can_move_false_outside_grid (-10) 96 H)].
Defined.

(** ** C10: the degenerate line of sight *)

(** C10.  [line_of_sight(p, p)] is true; more generally, when the sample
    count [steps = int(distance / 4)] is at most 1 -- which is when the two
    points are less than 8 units apart -- the loop [range(1, steps)] is
    empty, so no sample is tested and no division by [steps] takes place,
    and the answer is true. *)
Theorem line_of_sight_degenerate :
  (forall px py : R, line_of_sight px py px py = Ok true) /\
  (forall px py ex ey : R,
      (los_steps px py ex ey <= 1)%Z ->
      py_range 1 (los_steps px py ex ey) 1 = [] /\
      line_of_sight px py ex ey = Ok true) /\
  (forall px py ex ey : R,
      hypot (ex - px) (ey - py) < 8 <-> (los_steps px py ex ey <= 1)%Z).
Proof.
  split; [| split].
  - intros px py. apply line_of_sight_few_steps.
    apply los_steps_small. rewrite !Rminus_diag, hypot_0_0. lra.
  - intros px py ex ey H. split.
    + now apply py_range_unit_nil.
    + now apply line_of_sight_few_steps.
  - exact los_steps_small.
Qed.

Lemma line_of_sight_degenerate_witness :
  (los_steps 0 0 3 4 <= 1)%Z /\
  py_range 1 (los_steps 0 0 3 4) 1 = [] /\ line_of_sight 0 0 3 4 = Ok true.
Proof.
  assert (H : (los_steps 0 0 3 4 <= 1)%Z).
  { apply los_steps_small. unfold hypot.
    replace ((3 - 0) * (3 - 0) + (4 - 0) * (4 - 0)) with (5 * 5) by ring.
    rewrite sqrt_square by lra. lra. }
  split; [exact H |].
  exact (proj1 (proj2 line_of_sight_degenerate) 0 0 3 4 H).
Defined.

(** ** C9: the wall height *)

(** C9.  The wall height [PROJ_COEFF / (depth + 0.0001)] is monotonically
    non-increasing in the corrected depth: for [0 <= d1 <= d2] both heights
    are computed (the divisor is not zero) and the one at [d2] is at most the
    one at [d1]. *)
Theorem wall_height_monotone (d1 d2 : R) :
  0 <= d1 <= d2 ->
  exists h1 h2,
    wall_height d1 = Ok h1 /\ wall_height d2 = Ok h2 /\
    h1 = PROJ_COEFF / (d1 + 0.0001) /\ h2 = PROJ_COEFF / (d2 + 0.0001) /\
    h2 <= h1.
Proof.
  intros H.
  exists (PROJ_COEFF / (d1 + 0.0001)), (PROJ_COEFF / (d2 + 0.0001)).
  repeat split.
  - apply wall_height_ok; lra.
  - apply wall_height_ok; lra.
  - now apply wall_height_antitone.
Qed.

Lemma wall_height_monotone_witness :
  0 <= 0 <= 4 /\
  exists h1 h2,
    wall_height 0 = Ok h1 /\ wall_height 4 = Ok h2 /\
    h1 = PROJ_COEFF / (0 + 0.0001) /\ h2 = PROJ_COEFF / (4 + 0.0001) /\
    h2 <= h1.
Proof.
  assert (H : 0 <= 0 <= 4) by lra.
  split; [exact H | exact (wall_height_monotone 0 4 H)].
Defined.

(** ** C6: a player move commits or is dropped *)

(** C6.  For every player state and sign in [{+1, -1}] the move sets the
    position to exactly [pos + sign * speed * (cos heading, sin heading)]
    when [can_move] holds of that candidate, and otherwise returns the state
    unchanged; heading and roster are untouched in both cases, and the move
    is a total function (nothing is raised).  It is what the movement step of
    the loop does when only the key of that direction is held. *)
Theorem player_move_commits_or_stays (st : state) (sign : Z) :
  sign = 1%Z \/ sign = (-1)%Z ->
  let cx := fst (player_pos st) + IZR sign * player_speed * cos (player_angle st) in
  let cy := snd (player_pos st) + IZR sign * player_speed * sin (player_angle st) in
  movement (mkKeys false false (0 <? sign)%Z (sign <? 0)%Z false) st
  = move_along_heading sign st /\
  ((can_move cx cy = true /\
    move_along_heading sign st = mkState (cx, cy) (player_angle st) (enemies st)) \/
   (can_move cx cy = false /\ move_along_heading sign st = st)).
Proof.
  intros [-> | ->]; cbv zeta; (split; [reflexivity |]);
    unfold move_along_heading; simpl Z.ltb; cbv iota.
  - replace (fst (player_pos st) + 1 * player_speed * cos (player_angle st))
      with (fst (player_pos st) + player_speed * cos (player_angle st)) by ring.
    replace (snd (player_pos st) + 1 * player_speed * sin (player_angle st))
      with (snd (player_pos st) + player_speed * sin (player_angle st)) by ring.
    exact (move_forward_cases st).
  - replace (fst (player_pos st) + -1 * player_speed * cos (player_angle st))
      with (fst (player_pos st) - player_speed * cos (player_angle st)) by ring.
    replace (snd (player_pos st) + -1 * player_speed * sin (player_angle st))
      with (snd (player_pos st) - player_speed * sin (player_angle st)) by ring.
    exact (move_backward_cases st).
Qed.

Lemma player_move_commits_or_stays_witness :
  (1%Z = 1%Z \/ 1%Z = (-1)%Z) /\
  let cx := fst (player_pos state0) + IZR 1 * player_speed * cos (player_angle state0) in
  let cy := snd (player_pos state0) + IZR 1 * player_speed * sin (player_angle state0) in
  movement (mkKeys false false (0 <? 1)%Z (1 <? 0)%Z false) state0
  = move_along_heading 1 state0 /\
  ((can_move cx cy = true /\
    move_along_heading 1 state0 = mkState (cx, cy) (player_angle state0) (enemies state0)) \/
   (can_move cx cy = false /\ move_along_heading 1 state0 = state0)).
Proof.
  split; [left; reflexivity |].
  exact (player_move_commits_or_stays state0 1 (or_introl eq_refl)).
Defined.

(** ** C1: the indices of the march *)

(** C1.  For every observer pose whose position lies in an Empty cell of
    the map, every evaluation of [game_map[j][i]] inside the depth march of
    [ray_casting] has [0 <= i < MAP_WIDTH] and [0 <= j < MAP_HEIGHT], so the
    indexing never goes out of range at the map edges, and [ray_casting]
    returns.  The march holds no test of its own for this: consecutive
    samples are 4 units apart and the outer ring of the map is all wall, so
    the cell at the edge is read as a wall and stops the ray before an index
    can leave the grid. *)
Theorem ray_casting_in_range_from_empty_cell (pos : R * R) (angle : R) :
  in_empty_cell pos ->
  Forall index_in_range (fst (ray_casting pos angle)) /\
  exists cols, snd (ray_casting pos angle) = Ok cols.
Proof. exact (ray_casting_safe pos angle). Qed.

Lemma ray_casting_in_range_from_empty_cell_witness :
  in_empty_cell (96, 96) /\
  Forall index_in_range (fst (ray_casting (96, 96) 0)) /\
  exists cols, snd (ray_casting (96, 96) 0) = Ok cols.
Proof.
  assert (H : in_empty_cell (96, 96)) by exact can_move_player_start.
  split; [exact H | exact (ray_casting_in_range_from_empty_cell (96, 96) 0 H)].
Defined.

(** ** C8: the march terminates *)


(** ** C3: live positions and Empty cells *)

(** C3, as stated, fails in the initial state: the first enemy of the roster
    is alive and stands at (320, 320), a point of the wall cell (5, 5). *)
Lemma first_enemy_spawns_in_wall :
  reachable state0 /\
  (exists e, nth_error (enemies state0) 0 = Some e /\ alive e = true /\
             enemy_x e = 320 /\ enemy_y e = 320 /\
             can_move (enemy_x e) (enemy_y e) = false) /\
  ~ live_in_empty_cells state0.
Proof.
  split; [constructor |]. split.
  - eexists; split; [reflexivity |]. simpl.
    change (IZR (5 * TILE_SIZE)) with 320.
    repeat split; exact can_move_first_enemy.
  - intros [_ H].
    specialize (H _ (or_introl eq_refl) eq_refl).
    unfold in_empty_cell in H; simpl in H.
    change (IZR (5 * TILE_SIZE)) with 320 in H.
    rewrite can_move_first_enemy in H. discriminate.
Qed.

(** C3, amended.  At every reachable state the player's position lies in an
    Empty cell, and at every reachable state other than the initial one so
    does the position of every alive enemy; in the initial state the second
    enemy does.  Each player move and each pursuit step either leaves the
    position as it was or commits a candidate whose cell is walkable. *)
Theorem live_positions_after_first_frame (st : state) :
  reachable st ->
  in_empty_cell (player_pos st) /\
  (st = state0 \/ live_in_empty_cells st) /\
  (forall e, nth_error (enemies state0) 1 = Some e ->
             in_empty_cell (enemy_x e, enemy_y e)) /\
  (forall s, move_forward s = s \/ in_empty_cell (player_pos (move_forward s))) /\
  (forall s, move_backward s = s \/ in_empty_cell (player_pos (move_backward s))) /\
  (forall pos e,
      move_toward_player pos e = e \/
      in_empty_cell (enemy_x (move_toward_player pos e),
                     enemy_y (move_toward_player pos e))).
Proof.
  intros Hr.
  split; [now apply reachable_player_empty |].
  split; [now apply reachable_live |].
  split; [| split; [| split]].
  - intros e He; simpl in He. inversion He; subst e.
    exact can_move_second_enemy.
  - intros s. destruct (move_forward_cases s) as [[Hm ->] | [_ ->]]; auto.
  - intros s. destruct (move_backward_cases s) as [[Hm ->] | [_ ->]]; auto.
  - intros pos e.
    destruct (move_toward_player_cases pos e) as [[Hm ->] | [_ ->]]; auto.
Qed.

Lemma live_positions_after_first_frame_witness :
  reachable state0 /\
  exists st' out,
    frame all_keys state0 = Ok (st', out) /\ reachable st' /\
    in_empty_cell (player_pos st') /\ (st' = state0 \/ live_in_empty_cells st').
Proof.
  split; [exact reach_init |].
  destruct (frame_total all_keys state0 can_move_player_start) as (st' & out & Hf).
  exists st', out.
  assert (Hr : reachable st') by (exact (reach_frame _ _ _ _ reach_init Hf)).
  split; [exact Hf |]. split; [exact Hr |].
  split.
  - exact (proj1 (live_positions_after_first_frame st' Hr)).
  - exact (proj1 (proj2 (live_positions_after_first_frame st' Hr))).
Defined.

(** ** C7: a dead enemy stays dead *)

(** C7.  The dead state is terminal.  On a dead enemy a shot changes
    nothing, the enemy step of a frame leaves it as it is (the pursuit is
    skipped) and its [draw] draws nothing; hence over any sequence of frames
    the enemy in that slot of the roster stays the same record -- not alive,
    at the same position -- and no frame draws a sprite for it. *)
Theorem dead_enemy_is_terminal :
  (forall pos heading e,
      alive e = false ->
      shoot pos heading e = e /\
      draw pos heading e = Ok None /\
      enemy_step pos heading e = Ok (e, None)) /\
  (forall inputs st st' outs k e,
      run inputs st = Ok (st', outs) ->
      nth_error (enemies st) k = Some e -> alive e = false ->
      nth_error (enemies st') k = Some e /\
      Forall (fun out => nth_error (sprites out) k = Some None) outs).
Proof.
  split.
  - intros pos heading e H.
    auto using shoot_dead, draw_dead, enemy_step_dead.
  - intros inputs st st' outs k e. apply run_dead.
Qed.

Lemma dead_enemy_is_terminal_witness :
  exists st' outs e,
    run [all_keys; all_keys] first_enemy_dead = Ok (st', outs) /\
    nth_error (enemies first_enemy_dead) 0 = Some e /\ alive e = false /\
    nth_error (enemies st') 0 = Some e /\
    Forall (fun out => nth_error (sprites out) 0%nat = Some None) outs.
Proof.
  destruct (run_total [all_keys; all_keys] first_enemy_dead can_move_player_start)
    as (st' & outs & Hrun).
  exists st', outs, (mkEnemy (IZR (5 * TILE_SIZE)) (IZR (5 * TILE_SIZE)) false).
  split; [exact Hrun |]. split; [reflexivity |]. split; [reflexivity |].
  exact (proj2 dead_enemy_is_terminal _ _ _ _ 0%nat _ Hrun eq_refl eq_refl).
Defined.

(** ** C4: the hit window of one shot *)

Lemma Rabs_nonneg_eq (x : R) : 0 <= x -> Rabs x = x.
Proof. intros H. apply Rabs_pos_eq; assumption. Qed.

Lemma atan2_axis (x : R) : 0 < x -> atan2 0 x = 0.
Proof.
  intros H. unfold atan2. destruct (Rlt_dec 0 x); [| contradiction].
  replace (0 / x) with 0 by (field; lra). apply atan_0.
Qed.

(** An enemy straight along the x axis of a player heading 0. *)
Lemma axis_enemy (px py ex : R) (a : bool) :
  px < ex ->
  angle_diff (atan2 (enemy_y (mkEnemy ex py a) - snd (px, py))
                    (enemy_x (mkEnemy ex py a) - fst (px, py))) 0 = 0 /\
  distance_to_player (px, py) (mkEnemy ex py a) = ex - px.
Proof.
  intros H; simpl. pose proof PI_gt_3 as Hpi. split.
  - rewrite Rminus_diag, atan2_axis by lra.
    rewrite angle_diff_direct by lra.
    rewrite Rminus_diag. apply Rabs_R0.
  - unfold distance_to_player; simpl.
    rewrite Rminus_diag.
    replace (px - ex) with (0 - (ex - px)) by ring.
    replace 0 with (0 - 0) at 2 by ring.
    rewrite hypot_sym, !Rminus_0_r. apply hypot_axis; lra.
Qed.

(** C4.  One [fire] marks an alive enemy not alive exactly when the
    magnitude of the wrapped angular difference
    [((angle - heading + PI) mod 2 PI) - PI] -- which is the magnitude of
    the difference wrapped to [(-PI, PI]] -- is below 0.1 rad and the
    straight-line distance is below 300; so an enemy at angular difference 0
    and distance 100 is not alive after one [fire], and one at angular
    difference 0.2 and distance 100 still is. *)
Theorem fire_hits_inside_window (st : state) (k : nat) (e : Enemy) :
  nth_error (enemies st) k = Some e -> alive e = true ->
  let angle := atan2 (enemy_y e - snd (player_pos st))
                     (enemy_x e - fst (player_pos st)) in
  let d := Rabs (py_mod (angle - player_angle st + PI) (2 * PI) - PI) in
  let r := hypot (enemy_x e - fst (player_pos st))
                 (enemy_y e - snd (player_pos st)) in
  exists e',
    nth_error (enemies (fire st)) k = Some e' /\
    enemy_x e' = enemy_x e /\ enemy_y e' = enemy_y e /\
    d = Rabs (spec_wrap_half_open (angle - player_angle st)) /\
    (alive e' = false <-> d < 0.1 /\ r < 300) /\
    (d = 0 -> r = 100 -> alive e' = false) /\
    (d = 0.2 -> r = 100 -> alive e' = true).
Proof.
  intros Hk Ha; cbv zeta.
  exists (shoot (player_pos st) (player_angle st) e).
  split; [rewrite fire_nth, Hk; reflexivity |].
  destruct (shoot_position (player_pos st) (player_angle st) e) as [Hx Hy].
  split; [exact Hx |]. split; [exact Hy |].
  split; [apply wrapped_magnitude_agrees |].
  pose proof (shoot_hit_iff (player_pos st) (player_angle st) e Ha) as Hiff.
  unfold angle_diff, distance_to_player in Hiff.
  rewrite hypot_sym in Hiff.
  split; [exact Hiff |]. split.
  - intros Hd Hr. apply Hiff. rewrite Hd, Hr. lra.
  - intros Hd Hr. apply not_false_is_true; intros E.
    apply Hiff in E. rewrite Hd in E. lra.
Qed.

Lemma fire_hits_inside_window_witness :
  exists e1 e2,
    nth_error (enemies (fire shooting_range)) 0 = Some e1 /\ alive e1 = false /\
    nth_error (enemies (fire shooting_range)) 1 = Some e2 /\ alive e2 = true.
Proof.
  pose proof PI_gt_3 as Hpi.
  destruct (polar_enemy (96, 96) 0 0 100 true
              ltac:(lra) ltac:(lra) ltac:(lra)) as [D1 R1].
  destruct (polar_enemy (96, 96) 0 0.2 100 true
              ltac:(lra) ltac:(lra) ltac:(lra)) as [D2 R2].
  cbv zeta in D1, R1, D2, R2.
  unfold angle_diff in D1, D2. unfold distance_to_player in R1, R2.
  rewrite hypot_sym in R1, R2.
  rewrite Rabs_R0 in D1. rewrite (Rabs_nonneg_eq 0.2) in D2 by lra.
  destruct (fire_hits_inside_window shooting_range 0
              (enemy_at_polar (96, 96) (0 + 0) 100) eq_refl eq_refl)
    as (e1 & K1 & _ & _ & _ & _ & Hit & _).
  destruct (fire_hits_inside_window shooting_range 1
              (enemy_at_polar (96, 96) (0 + 0.2) 100) eq_refl eq_refl)
    as (e2 & K2 & _ & _ & _ & _ & _ & Miss).
  exists e1, e2.
  split; [exact K1 |]. split; [exact (Hit D1 R1) |].
  split; [exact K2 | exact (Miss D2 R2)].
Defined.

(** ** C5: shots go through walls *)

(** C5.  The hit test applies no line-of-sight check: whether an alive enemy
    is marked not alive is a function of the angular difference and the
    straight-line distance alone; and there is a state -- player and enemy in
    Empty cells on either side of a wall tile -- in which [line_of_sight] is
    false and one [fire] still marks the enemy not alive. *)
Theorem fire_ignores_line_of_sight :
  (forall pos1 h1 e1 pos2 h2 e2,
      alive e1 = true -> alive e2 = true ->
      angle_diff (atan2 (enemy_y e1 - snd pos1) (enemy_x e1 - fst pos1)) h1 =
      angle_diff (atan2 (enemy_y e2 - snd pos2) (enemy_x e2 - fst pos2)) h2 ->
      distance_to_player pos1 e1 = distance_to_player pos2 e2 ->
      alive (shoot pos1 h1 e1) = alive (shoot pos2 h2 e2)) /\
  (in_empty_cell (player_pos behind_wall) /\
   exists e,
     enemies behind_wall = [e] /\ alive e = true /\
     in_empty_cell (enemy_x e, enemy_y e) /\
     line_of_sight (fst (player_pos behind_wall)) (snd (player_pos behind_wall))
                   (enemy_x e) (enemy_y e) = Ok false /\
     enemies (fire behind_wall) = [mkEnemy (enemy_x e) (enemy_y e) false]).
Proof.
  split.
  - intros pos1 h1 e1 pos2 h2 e2 A1 A2 Hd Hr.
    destruct (shoot_cases pos1 h1 e1 A1) as [(D1 & R1 & ->) | (N1 & ->)];
      destruct (shoot_cases pos2 h2 e2 A2) as [(D2 & R2 & ->) | (N2 & ->)];
      simpl; try congruence; exfalso.
    + apply N2. rewrite <- Hd, <- Hr. auto.
    + apply N1. rewrite Hd, Hr. auto.
  - split.
    { unfold in_empty_cell; simpl.
      in_tile 1%Z 2%Z. }
    exists (mkEnemy 224 160 true).
    split; [reflexivity |]. split; [reflexivity |]. split.
    { unfold in_empty_cell; simpl.
      in_tile 3%Z 2%Z. }
    split; [exact line_of_sight_across_wall |].
    unfold fire; simpl map.
    destruct (axis_enemy 96 160 224 true ltac:(lra)) as [Hd Hr].
    destruct (shoot_cases (96, 160) 0 (mkEnemy 224 160 true) eq_refl)
      as [(_ & _ & ->) | (N & _)]; [reflexivity |].
    exfalso; apply N. rewrite Hd, Hr. lra.
Qed.

Lemma fire_ignores_line_of_sight_witness :
  line_of_sight 96 160 224 160 = Ok false /\
  alive (shoot (96, 160) 0 (mkEnemy 224 160 true)) =
  alive (shoot (96, 96) 0 (mkEnemy 224 96 true)).
Proof.
  split; [exact line_of_sight_across_wall |].
  destruct (axis_enemy 96 160 224 true ltac:(lra)) as [D1 R1].
  destruct (axis_enemy 96 96 224 true ltac:(lra)) as [D2 R2].
  apply (proj1 fire_ignores_line_of_sight (96, 160) 0 (mkEnemy 224 160 true)
               (96, 96) 0 (mkEnemy 224 96 true) eq_refl eq_refl).
  - rewrite D1, D2; reflexivity.
  - rewrite R1, R2; reflexivity.
Defined.

(** * Further properties of the engine *)

Lemma py_range_unit_In (start stop k : Z) :
  (start <= k < stop)%Z -> In k (py_range start stop 1).
Proof.
  intros H. unfold py_range. apply in_map_iff.
  exists (Z.to_nat (k - start)). split; [lia |].
  apply in_seq. rewrite Z.div_1_r. lia.
Qed.

Lemma los_loop_true_iff (px py dx dy : R) (steps : Z) (l : list Z) :
  steps <> 0%Z ->
  los_loop px py dx dy steps l = Ok true <->
  (forall step, In step l ->
     can_move (px + dx * IZR step / IZR steps)
              (py + dy * IZR step / IZR steps) = true).
Proof.
  intros Hs. assert (IZR steps <> 0) by (now apply not_0_IZR).
  induction l as [| step rest IH]; simpl.
  - split; [intros _ s [] | reflexivity].
  - rewrite !py_div_ok by assumption; simpl.
    destruct (can_move _ _) eqn:E.
    + rewrite IH. split.
      * intros Hl s [<- | Hin]; [exact E | now apply Hl].
      * intros Hl s Hin. apply Hl. now right.
    + split; [discriminate |].
      intros Hl. rewrite (Hl step (or_introl eq_refl)) in E. discriminate E.
Qed.

(** X1.  The per-frame queries do not raise.  For two points whose
    coordinates are at most [10^9] in magnitude -- far inside the range in
    which [math.hypot] is finite -- [line_of_sight] returns a boolean: the
    division by [steps] is only reached inside the loop, where [steps >= 2].
    The boolean is true exactly when every sample [p + (e - p) * step /
    steps], for [1 <= step < steps], is a point of an Empty cell; it is
    vacuously true when [steps <= 1].  And under the guard of [can_move] the
    access [game_map[j][i]] succeeds. *)
Theorem queries_are_total (px py ex ey : R) :
  Rabs px <= 1000000000 -> Rabs py <= 1000000000 ->
  Rabs ex <= 1000000000 -> Rabs ey <= 1000000000 ->
  (exists b,
     line_of_sight px py ex ey = Ok b /\
     (b = true <->
      forall step, (1 <= step < los_steps px py ex ey)%Z ->
        can_move (px + (ex - px) * IZR step / IZR (los_steps px py ex ey))
                 (py + (ey - py) * IZR step / IZR (los_steps px py ex ey))
        = true)) /\
  (forall i j, in_grid i j = true -> exists v, cell j i = Ok v).
Proof.
  intros _ _ _ _. split.
  - destruct (line_of_sight_total px py ex ey) as [b Hb]. exists b.
    split; [exact Hb |].
    destruct (Z_le_gt_dec (los_steps px py ex ey) 1) as [H | H].
    + rewrite (line_of_sight_few_steps _ _ _ _ H) in Hb.
      injection Hb as <-. split; [intros _ step Hstep; lia | reflexivity].
    + unfold line_of_sight in Hb.
      pose proof (los_loop_true_iff px py (ex - px) (ey - py)
                    (los_steps px py ex ey)
                    (py_range 1 (los_steps px py ex ey) 1) ltac:(lia)) as Hiff.
      rewrite Hb in Hiff. split.
      * intros -> step Hstep. apply (proj1 Hiff eq_refl).
        now apply py_range_unit_In.
      * intros Hall. apply not_false_is_true. intros ->.
        assert (Ht : Ok false = Ok true :> result bool).
        { apply Hiff. intros step Hin. apply Hall. now apply py_range_In. }
        discriminate Ht.
  - intros i j H. destruct (cell_in_grid i j H) as (v & Hv & _); eauto.
Qed.

Lemma queries_are_total_witness :
  exists b, line_of_sight 96 160 224 160 = Ok b /\
    (b = true <->
     forall step, (1 <= step < los_steps 96 160 224 160)%Z ->
       can_move (96 + (224 - 96) * IZR step / IZR (los_steps 96 160 224 160))
                (160 + (160 - 160) * IZR step / IZR (los_steps 96 160 224 160))
       = true).
Proof.
  refine (proj1 (queries_are_total 96 160 224 160 _ _ _ _));
    apply Rabs_le; lra.
Defined.

(** X2.  A frame started in a reachable state returns: neither the ray
    casting nor the enemy loop raises. *)
Theorem reachable_frame_returns (st : state) (ks : keys) :
  reachable st -> exists st' out, frame ks st = Ok (st', out).
Proof. intros H. apply frame_total. now apply reachable_player_empty. Qed.

Lemma reachable_frame_returns_witness :
  reachable state0 /\ exists st' out, frame all_keys state0 = Ok (st', out).
Proof.
  split; [exact reach_init |].
  exact (reachable_frame_returns state0 all_keys reach_init).
Defined.

(** X3.  Inside the grid bounds [can_move] is exactly the stored cell state:
    true if and only if the cell of the point holds 0. *)
Theorem can_move_matches_cell (x y : R) :
  0 <= x < IZR (MAP_WIDTH * TILE_SIZE) ->
  0 <= y < IZR (MAP_HEIGHT * TILE_SIZE) ->
  (can_move x y = true <->
   cell (Zfloor (y / IZR TILE_SIZE)) (Zfloor (x / IZR TILE_SIZE)) = Ok 0%Z).
Proof.
  change (IZR (MAP_WIDTH * TILE_SIZE)) with 512.
  change (IZR (MAP_HEIGHT * TILE_SIZE)) with 512.
  intros Hx Hy. rewrite can_move_true; cbv zeta. unfold TILE_SIZE in *.
  rewrite !py_int_nonneg by lra.
  split; [intros (_ & _ & H); exact H |].
  intros H. repeat split; try assumption.
  - apply Zfloor_lub; simpl; lra.
  - apply lt_IZR. generalize (Zfloor_bound (x / 64)); unfold MAP_WIDTH; lra.
  - apply Zfloor_lub; simpl; lra.
  - apply lt_IZR. generalize (Zfloor_bound (y / 64)); unfold MAP_HEIGHT; lra.
Qed.

Lemma can_move_matches_cell_witness :
  can_move 96 96 = true <->
  cell (Zfloor (96 / IZR TILE_SIZE)) (Zfloor (96 / IZR TILE_SIZE)) = Ok 0%Z.
Proof.
  apply (can_move_matches_cell 96 96).
  - change (IZR (MAP_WIDTH * TILE_SIZE)) with 512; lra.
  - change (IZR (MAP_HEIGHT * TILE_SIZE)) with 512; lra.
Defined.

Lemma atan2_negative_axis (x : R) : x < 0 -> atan2 0 x = PI.
Proof.
  intros H. unfold atan2.
  destruct (Rlt_dec 0 x); [lra |].
  destruct (Rlt_dec x 0); [| lra].
  destruct (Rle_dec 0 0); [| lra].
  replace (0 / x) with 0 by (field; lra). rewrite atan_0. ring.
Qed.

(** X4.  A pursuit step whose candidate cell is not walkable leaves the
    enemy in place, and so does any number of repetitions of it: the enemy
    stalls, nothing is raised. *)
Theorem pursuit_stalls (pos : R * R) (self : Enemy) (n : nat) :
  (let angle := atan2 (snd pos - enemy_y self) (fst pos - enemy_x self) in
   can_move (enemy_x self + 0.5 * cos angle) (enemy_y self + 0.5 * sin angle)
   = false) ->
  Nat.iter n (move_toward_player pos) self = self.
Proof.
  cbv zeta; intros H.
  assert (E : move_toward_player pos self = self).
  { destruct (move_toward_player_cases pos self) as [[Hm _] | [_ E]];
      [cbv zeta in Hm; congruence | exact E]. }
  induction n as [| n IH]; simpl; [reflexivity |].
  rewrite IH. exact E.
Qed.

Lemma pursuit_stalls_witness :
  Nat.iter 10 (move_toward_player (96, 160)) (mkEnemy 192.25 160 true)
  = mkEnemy 192.25 160 true.
Proof.
  apply pursuit_stalls; cbv zeta; simpl.
  replace (160 - 160) with 0 by lra.
  rewrite atan2_negative_axis by lra.
  rewrite cos_PI, sin_PI.
  in_tile 2%Z 2%Z.
Defined.

(** ** More on angles and distances *)

Lemma atan2_range (y x : R) : - PI < atan2 y x <= PI.
Proof.
  pose proof PI_RGT_0 as Hpi. unfold atan2.
  destruct (Rlt_dec 0 x) as [Hx | Hx].
  - generalize (atan_bound (y / x)); lra.
  - destruct (Rlt_dec x 0) as [Hx' | Hx'].
    + assert (Hinv : / x < 0) by (now apply Rinv_neg).
      destruct (Rle_dec 0 y) as [Hy | Hy].
      * assert (Ht : y / x <= 0) by (unfold Rdiv; nra).
        assert (atan (y / x) <= 0).
        { destruct Ht as [Ht | Ht].
          - left. rewrite <- atan_0. now apply atan_increasing.
          - rewrite Ht, atan_0. lra. }
        generalize (atan_bound (y / x)); lra.
      * assert (Ht : 0 < y / x) by (unfold Rdiv; nra).
        destruct (atan_pos _ Ht). lra.
    + destruct (Rlt_dec 0 y); [lra |]. destruct (Rlt_dec y 0); lra.
Qed.

Lemma hypot_sqr (x y : R) : hypot x y * hypot x y = x * x + y * y.
Proof. unfold hypot. apply sqrt_sqrt. nra. Qed.

Lemma hypot_scale (k x y : R) : hypot (k * x) (k * y) = Rabs k * hypot x y.
Proof.
  pose proof (hypot_nonneg x y) as H0. pose proof (hypot_sqr x y) as Hs.
  unfold hypot at 1. apply sqrt_lem_1.
  - nra.
  - apply Rmult_le_pos; [apply Rabs_pos | assumption].
  - replace (Rabs k * hypot x y * (Rabs k * hypot x y))
      with (Rabs k * Rabs k * (hypot x y * hypot x y)) by ring.
    rewrite Hs, <- Rabs_mult, Rabs_pos_eq by nra. ring.
Qed.

Lemma hypot_pos_iff (x y : R) : 0 < hypot x y <-> (x <> 0 \/ y <> 0).
Proof.
  pose proof (hypot_nonneg x y) as H0. pose proof (hypot_sqr x y) as Hs.
  split.
  - intros H. destruct (Req_dec_T x 0) as [-> |]; [| now left].
    right; intros ->. rewrite hypot_0_0 in H. lra.
  - intros H. destruct H0 as [H0 | H0]; [assumption | exfalso].
    rewrite <- H0 in Hs. destruct H; nra.
Qed.

(** With a non-zero abscissa, the radical that [cos_atan] and [sin_atan]
    leave is the distance over the magnitude of the abscissa. *)
Lemma sqrt_one_plus_slope (x y : R) :
  x <> 0 -> sqrt (1 + (y / x)²) = hypot x y / Rabs x.
Proof.
  intros Hx.
  pose proof (hypot_nonneg x y) as H0. pose proof (hypot_sqr x y) as Hs.
  assert (Ha : 0 < Rabs x) by (now apply Rabs_pos_lt).
  assert (Haa : Rabs x * Rabs x = x * x)
    by (rewrite <- Rabs_mult; apply Rabs_pos_eq; nra).
  apply sqrt_lem_1.
  - unfold Rsqr. nra.
  - apply Rmult_le_pos; [assumption | left; now apply Rinv_0_lt_compat].
  - unfold Rsqr.
    replace (hypot x y / Rabs x * (hypot x y / Rabs x))
      with (hypot x y * hypot x y / (Rabs x * Rabs x)) by (field; lra).
    rewrite Hs, Haa. field; assumption.
Qed.

(** [atan2] returns the direction of the vector [(x, y)]. *)
Lemma atan2_cos_sin (y x : R) :
  0 < hypot x y ->
  cos (atan2 y x) = x / hypot x y /\ sin (atan2 y x) = y / hypot x y.
Proof.
  intros HD. set (D := hypot x y) in *.
  assert (HDn : D <> 0) by lra.
  unfold atan2.
  destruct (Rlt_dec 0 x) as [Hx | Hx].
  - rewrite cos_atan, sin_atan, sqrt_one_plus_slope by lra. fold D.
    rewrite Rabs_pos_eq by lra. split; field; lra.
  - destruct (Rlt_dec x 0) as [Hx' | Hx'].
    + assert (E : sqrt (1 + (y / x)²) = D / - x).
      { rewrite sqrt_one_plus_slope by lra. fold D.
        now rewrite Rabs_left by assumption. }
      destruct (Rle_dec 0 y).
      * rewrite neg_cos, neg_sin, cos_atan, sin_atan, E. split; field; lra.
      * replace (atan (y / x) - PI) with (- (PI - atan (y / x))) by ring.
        rewrite cos_neg, sin_neg.
        replace (PI - atan (y / x)) with (- atan (y / x) + PI) by ring.
        rewrite neg_cos, neg_sin, cos_neg, sin_neg, cos_atan, sin_atan, E.
        split; field; lra.
    + assert (Ex : x = 0) by lra. subst x.
      assert (Hy : y <> 0).
      { destruct (proj1 (hypot_pos_iff 0 y) HD); [lra | assumption]. }
      assert (ED : D = Rabs y).
      { unfold D, hypot. replace (0 * 0 + y * y) with (Rsqr y) by (unfold Rsqr; ring).
        apply sqrt_Rsqr_abs. }
      destruct (Rlt_dec 0 y) as [Hy' | Hy'].
      * rewrite cos_PI2, sin_PI2, ED, Rabs_pos_eq by lra. split; field; lra.
      * destruct (Rlt_dec y 0) as [Hy'' | Hy'']; [| lra].
        rewrite cos_neg, sin_neg, cos_PI2, sin_PI2, ED, Rabs_left by lra.
        split; field; lra.
Qed.

(** ** Line of sight inside a walkable rectangle *)

Lemma los_loop_all (px py dx dy : R) (steps : Z) (l : list Z) :
  steps <> 0%Z ->
  (forall step, In step l ->
     can_move (px + dx * IZR step / IZR steps) (py + dy * IZR step / IZR steps) = true) ->
  los_loop px py dx dy steps l = Ok true.
Proof.
  intros Hs Hl. assert (IZR steps <> 0) by (now apply not_0_IZR).
  induction l as [| step rest IH]; simpl; [reflexivity |].
  rewrite !py_div_ok by assumption; simpl.
  rewrite (Hl step (or_introl eq_refl)).
  apply IH. intros s Hin; apply Hl; now right.
Qed.

(** A sample is a convex combination of the two end points. *)
Lemma sample_between (a b lo hi : R) (k n : Z) :
  (1 <= k < n)%Z -> lo <= a <= hi -> lo <= b <= hi ->
  lo <= a + (b - a) * IZR k / IZR n <= hi.
Proof.
  intros [Hk Hn] Ha Hb.
  assert (H1 : 1 <= IZR k) by (now apply IZR_le in Hk).
  assert (H2 : IZR k < IZR n) by (now apply IZR_lt).
  set (t := IZR k / IZR n).
  assert (Ht : 0 < t < 1).
  { unfold t. assert (E : IZR k / IZR n * IZR n = IZR k) by (field; lra).
    split; [apply Rdiv_lt_0_compat; lra | nra]. }
  replace (a + (b - a) * IZR k / IZR n) with (a + (b - a) * t)
    by (unfold t; field; lra).
  split; nra.
Qed.

Lemma line_of_sight_in_rectangle (x0 x1 y0 y1 px py ex ey : R) :
  (forall x y, x0 <= x <= x1 -> y0 <= y <= y1 -> can_move x y = true) ->
  x0 <= px <= x1 -> y0 <= py <= y1 -> x0 <= ex <= x1 -> y0 <= ey <= y1 ->
  line_of_sight px py ex ey = Ok true.
Proof.
  intros Hw Hpx Hpy Hex Hey. unfold line_of_sight; cbv zeta.
  destruct (Z_le_gt_dec (los_steps px py ex ey) 1) as [H | H].
  - now rewrite py_range_unit_nil.
  - apply los_loop_all; [lia |].
    intros step Hin. apply py_range_In in Hin.
    apply Hw; now apply sample_between.
Qed.

(** The block of tiles in columns 5-6 and rows 1-4 is all Empty. *)
Lemma east_block_walkable (x y : R) :
  320 <= x <= 447 -> 64 <= y <= 319 -> can_move x y = true.
Proof.
  intros Hx Hy. apply can_move_true; cbv zeta. unfold TILE_SIZE.
  assert (Hi : (5 <= py_int (x / 64) < 7)%Z)
    by (split; [apply py_int_ge | apply py_int_lt]; try lia; lra).
  assert (Hj : (1 <= py_int (y / 64) < 5)%Z)
    by (split; [apply py_int_ge | apply py_int_lt]; try lia; lra).
  unfold MAP_WIDTH, MAP_HEIGHT.
  split; [lia |]. split; [lia |].
  assert (Ci : py_int (x / 64) = 5%Z \/ py_int (x / 64) = 6%Z) by lia.
  assert (Cj : py_int (y / 64) = 1%Z \/ py_int (y / 64) = 2%Z \/
               py_int (y / 64) = 3%Z \/ py_int (y / 64) = 4%Z) by lia.
  destruct Ci as [-> | ->]; destruct Cj as [-> | [-> | [-> | ->]]]; reflexivity.
Qed.

(** X5.  Between any two points of an axis-parallel rectangle that is
    walkable throughout, [line_of_sight] holds, in both directions: every
    sample is a convex combination of the end points. *)
Theorem line_of_sight_in_walkable_rectangle (x0 x1 y0 y1 px py ex ey : R) :
  (forall x y, x0 <= x <= x1 -> y0 <= y <= y1 -> can_move x y = true) ->
  x0 <= px <= x1 -> y0 <= py <= y1 -> x0 <= ex <= x1 -> y0 <= ey <= y1 ->
  line_of_sight px py ex ey = Ok true /\ line_of_sight ex ey px py = Ok true.
Proof.
  intros Hw Hpx Hpy Hex Hey.
  split; eapply line_of_sight_in_rectangle; eauto.
Qed.

Lemma line_of_sight_in_walkable_rectangle_witness :
  line_of_sight 330 70 440 310 = Ok true /\
  line_of_sight 440 310 330 70 = Ok true.
Proof.
  apply (line_of_sight_in_walkable_rectangle 320 447 64 319);
    [exact east_block_walkable | lra | lra | lra | lra].
Defined.

(** ** What [draw] draws *)

Lemma py_floordiv_bound (a b : R) :
  py_floordiv a b <= a / b < py_floordiv a b + 1.
Proof. unfold py_floordiv. apply Zfloor_bound. Qed.

(** Inside the field of view the projected offset stays within half the
    number of rays. *)
Lemma projected_offset_bound (rel : R) :
  - FOV / 2 < rel < FOV / 2 -> -120 < tan rel * DISTANCE < 120.
Proof.
  intros [H1 H2].
  destruct half_FOV_bounds as [F1 F2].
  pose proof (tan_gt_0 (FOV / 2) F1 F2) as HT.
  assert (Hlo : - tan (FOV / 2) < tan rel).
  { rewrite <- tan_neg. apply tan_increasing; lra. }
  assert (Hhi : tan rel < tan (FOV / 2)) by (apply tan_increasing; lra).
  unfold DISTANCE, NUM_RAYS.
  set (T := tan (FOV / 2)) in *.
  replace (tan rel * (240 / (2 * T))) with (120 * (tan rel / T)) by (field; lra).
  assert (E : tan rel / T * T = tan rel) by (field; lra).
  split; nra.
Qed.

Lemma draw_some_iff (pos : R * R) (heading : R) (self : Enemy) :
  (exists r, draw pos heading self = Ok (Some r)) <->
  (alive self = true /\
   line_of_sight (fst pos) (snd pos) (enemy_x self) (enemy_y self) = Ok true /\
   - FOV / 2 < atan2 (enemy_y self - snd pos) (enemy_x self - fst pos) - heading
             < FOV / 2).
Proof.
  unfold draw.
  destruct (alive self); simpl.
  2:{ split; [intros [r H]; discriminate | intros [H _]; discriminate]. }
  destruct (line_of_sight_total (fst pos) (snd pos) (enemy_x self) (enemy_y self))
    as [b ->]; simpl.
  destruct b; simpl.
  2:{ split; [intros [r H]; discriminate | intros (_ & H & _); discriminate]. }
  rewrite py_div_ok
    by (generalize (hypot_nonneg (enemy_x self - fst pos) (enemy_y self - snd pos)); lra).
  simpl.
  destruct (Rltb (- FOV / 2) _) eqn:E1; destruct (Rltb _ (FOV / 2)) eqn:E2; simpl;
    rewrite ?Rltb_true, ?Rltb_false in *;
    (split; [intros [r H]; try discriminate H; repeat split; auto
            | intros (_ & _ & [H1 H2]); try lra; eauto]).
Qed.

(** X6.  Whenever [draw] draws a sprite, the enemy is alive and in line of
    sight; the sprite is red, its height is [PROJ_COEFF / (distance +
    0.0001)], which is positive, its width is [height // 2]; it is centred
    on the horizontal midline of the screen to within one pixel; and its
    horizontal anchor [x + height // 4] is within 120 pixels of the centre
    of the screen, whatever the direction of the enemy. *)
Theorem drawn_sprite_geometry (pos : R * R) (heading : R) (self : Enemy) (r : rect) :
  draw pos heading self = Ok (Some r) ->
  alive self = true /\
  line_of_sight (fst pos) (snd pos) (enemy_x self) (enemy_y self) = Ok true /\
  r_color r = (255, 0, 0) /\
  r_h r = PROJ_COEFF / (hypot (enemy_x self - fst pos) (enemy_y self - snd pos)
                        + 0.0001) /\
  0 < r_h r /\
  r_w r = py_floordiv (r_h r) 2 /\
  IZR (SCREEN_HEIGHT / 2) <= r_y r + r_h r / 2 < IZR (SCREEN_HEIGHT / 2) + 1 /\
  IZR (SCREEN_WIDTH / 2) - 120 < r_x r + py_floordiv (r_h r) 4
                               < IZR (SCREEN_WIDTH / 2) + 120.
Proof.
  intros H.
  destruct (proj1 (draw_some_iff pos heading self) (ex_intro _ r H))
    as (Ha & Hl & Hrel).
  unfold draw in H. rewrite Ha, Hl in H; simpl in H.
  pose proof (hypot_nonneg (enemy_x self - fst pos) (enemy_y self - snd pos)) as HD.
  rewrite py_div_ok in H by lra. simpl in H.
  destruct Hrel as [R1 R2].
  rewrite (proj2 (Rltb_true _ _) R1), (proj2 (Rltb_true _ _) R2) in H; simpl in H.
  injection H as <-; simpl.
  set (h := PROJ_COEFF / (hypot (enemy_x self - fst pos) (enemy_y self - snd pos)
                          + 0.0001)).
  assert (Hh : 0 < h)
    by (apply Rdiv_lt_0_compat; [exact PROJ_COEFF_pos | lra]).
  pose proof (py_floordiv_bound h 2) as B2.
  pose proof (projected_offset_bound _ (conj R1 R2)) as Boff.
  repeat split; auto; lra.
Qed.

Lemma drawn_sprite_geometry_witness :
  exists r,
    draw (330, 70) 0 (mkEnemy 440 70 true) = Ok (Some r) /\
    r_color r = (255, 0, 0) /\ 0 < r_h r /\ r_w r = py_floordiv (r_h r) 2.
Proof.
  assert (H : exists r, draw (330, 70) 0 (mkEnemy 440 70 true) = Ok (Some r)).
  { apply draw_some_iff; simpl. split; [reflexivity |]. split.
    - apply (line_of_sight_in_rectangle 320 447 64 319);
        [exact east_block_walkable | lra | lra | lra | lra].
    - replace (70 - 70) with 0 by lra. rewrite atan2_axis by lra.
      destruct half_FOV_bounds. lra. }
  destruct H as [r Hr]. exists r. split; [exact Hr |].
  destruct (drawn_sprite_geometry (330, 70) 0 (mkEnemy 440 70 true) r Hr)
    as (_ & _ & Hc & _ & Hh & Hw & _).
  auto.
Defined.

(** ** The heading is never wrapped *)

Lemma draw_none_beyond_turn (pos : R * R) (heading : R) (self : Enemy) :
  PI + FOV / 2 <= Rabs heading -> draw pos heading self = Ok None.
Proof.
  intros Hh.
  destruct (draw_total pos heading self) as [[r |] Hd]; [exfalso | exact Hd].
  destruct (proj1 (draw_some_iff pos heading self) (ex_intro _ r Hd))
    as (_ & _ & [R1 R2]).
  pose proof (atan2_range (enemy_y self - snd pos) (enemy_x self - fst pos)) as Ha.
  unfold Rabs in Hh. destruct (Rcase_abs heading); lra.
Qed.



Lemma frame_turn_right_only (st st' : state) (out : frame_out) :
  frame turn_right_only st = Ok (st', out) ->
  player_pos st' = player_pos st /\ player_angle st' = player_angle st + 0.03.
Proof.
  intros H. apply frame_inv in H; cbv zeta in H.
  destruct H as (Hp & Ha & _). rewrite Hp, Ha. split; reflexivity.
Qed.

(** In exact arithmetic [n] frames with only the turn-right key held add
    [0.03 * n] to the heading. *)
Lemma turn_right_frames (n : nat) (st : state) :
  in_empty_cell (player_pos st) ->
  exists st' outs,
    run (repeat turn_right_only n) st = Ok (st', outs) /\
    player_pos st' = player_pos st /\
    player_angle st' = player_angle st + 0.03 * INR n.
Proof.
  revert st. induction n as [| n IH]; intros st Hpos.
  - exists st, []. simpl. repeat split. ring.
  - destruct (frame_total turn_right_only st Hpos) as (st1 & out & Hf).
    destruct (frame_turn_right_only st st1 out Hf) as [Hp1 Ha1].
    assert (Hpos1 : in_empty_cell (player_pos st1)) by (now rewrite Hp1).
    destruct (IH st1 Hpos1) as (st' & outs & Hrun & Hp & Ha).
    exists st', (out :: outs).
    rewrite S_INR.
    change (repeat turn_right_only (S n))
      with (turn_right_only :: repeat turn_right_only n).
    cbn [run]. rewrite Hf; cbn [bind fst snd]. rewrite Hrun; cbn [bind fst snd].
    split; [reflexivity |]. split; [congruence |].
    rewrite Ha, Ha1. ring.
Qed.



(** ** Full turns of the heading *)

Lemma py_mod_add_periods (a b : R) (k : nat) :
  b <> 0 -> py_mod (a + INR k * b) b = py_mod a b.
Proof.
  intros Hb. unfold py_mod.
  replace ((a + INR k * b) / b) with (a / b + IZR (Z.of_nat k))
    by (rewrite <- INR_IZR_INZ; field; assumption).
  rewrite Zfloor_addz, plus_IZR, <- INR_IZR_INZ. ring.
Qed.

Lemma angle_diff_full_turns (angle heading : R) (k : nat) :
  angle_diff angle (heading - 2 * INR k * PI) = angle_diff angle heading.
Proof.
  unfold angle_diff.
  replace (angle - (heading - 2 * INR k * PI) + PI)
    with (angle - heading + PI + INR k * (2 * PI)) by ring.
  rewrite py_mod_add_periods; [reflexivity |].
  generalize PI_RGT_0; lra.
Qed.

(** X9.  The hit test wraps the angular difference, so it does not see full
    turns of the heading: one shot with the heading [h] and one with the
    heading [h - 2 k PI] do the same to every enemy. *)
Theorem fire_invariant_under_full_turns (pos : R * R) (heading : R) (k : nat)
        (es : list Enemy) :
  enemies (fire (mkState pos (heading - 2 * INR k * PI) es)) =
  enemies (fire (mkState pos heading es)).
Proof.
  unfold fire; simpl. apply map_ext. intros e.
  unfold shoot. now rewrite angle_diff_full_turns.
Qed.

Lemma march_ext (pos : R * R) (angle cur angle' cur' : R) (ray : Z)
      (depths : list Z) :
  cos cur = cos cur' -> sin cur = sin cur' ->
  cos (angle - cur) = cos (angle' - cur') ->
  march pos angle cur ray depths = march pos angle' cur' ray depths.
Proof.
  intros Hc Hs Hd. induction depths as [| d rest IH]; simpl; [reflexivity |].
  rewrite Hc, Hs, IH. unfold wall_column. rewrite Hd. reflexivity.
Qed.

Lemma cast_ray_full_turns (pos : R * R) (angle : R) (k : nat) (ray : Z) :
  cast_ray pos (angle + 2 * INR k * PI) ray = cast_ray pos angle ray.
Proof.
  unfold cast_ray; cbv zeta. apply march_ext.
  - replace (angle + 2 * INR k * PI - FOV / 2 + IZR ray * DELTA_ANGLE)
      with (angle - FOV / 2 + IZR ray * DELTA_ANGLE + 2 * INR k * PI) by ring.
    apply cos_period.
  - replace (angle + 2 * INR k * PI - FOV / 2 + IZR ray * DELTA_ANGLE)
      with (angle - FOV / 2 + IZR ray * DELTA_ANGLE + 2 * INR k * PI) by ring.
    apply sin_period.
  - f_equal. ring.
Qed.

Lemma ray_casting_full_turns (pos : R * R) (angle : R) (k : nat) :
  ray_casting pos (angle + 2 * INR k * PI) = ray_casting pos angle.
Proof.
  unfold ray_casting.
  induction (py_range 0 NUM_RAYS 1) as [| ray rest IH]; simpl; [reflexivity |].
  now rewrite cast_ray_full_turns, IH.
Qed.

(** X10.  The walls only depend on the heading through sines and cosines, so
    a full turn of the heading changes nothing of what [ray_casting]
    decides: for [h + 2 k PI] it reads the same cells in the same order as
    for [h], raises where it raised, and draws columns for the same rays, at
    the same places and of the same width. *)
Theorem ray_casting_invariant_under_full_turns (pos : R * R) (angle : R) (k : nat) :
  fst (ray_casting pos (angle + 2 * INR k * PI)) = fst (ray_casting pos angle) /\
  (forall e, snd (ray_casting pos angle) = Raise e ->
             snd (ray_casting pos (angle + 2 * INR k * PI)) = Raise e) /\
  (forall cols, snd (ray_casting pos angle) = Ok cols ->
     exists cols',
       snd (ray_casting pos (angle + 2 * INR k * PI)) = Ok cols' /\
       map (fun c => (r_x c, r_w c)) cols' = map (fun c => (r_x c, r_w c)) cols).
Proof.
  rewrite ray_casting_full_turns. split; [reflexivity |]. split; [auto |].
  intros cols H. exists cols. auto.
Qed.

(** ** The columns of a frame *)

Lemma wall_column_shape (ray : Z) (depth angle cur : R) (c : rect) :
  wall_column ray depth angle cur = Ok c ->
  let d := depth * cos (angle - cur) in
  r_x c = IZR (ray * SCALE) /\ r_w c = IZR SCALE /\
  r_h c = PROJ_COEFF / (d + 0.0001) /\
  r_y c = IZR (SCREEN_HEIGHT / 2) - py_floordiv (r_h c) 2 /\
  r_color c = (255 / (1 + d * d * 0.0001), 255 / (1 + d * d * 0.0001),
               255 / (1 + d * d * 0.0001)).
Proof.
  cbv zeta. unfold wall_column, wall_height, py_div.
  destruct (Req_dec_T _ 0); simpl; [discriminate |].
  destruct (Req_dec_T _ 0); simpl; [discriminate |].
  intros H; injection H as <-; simpl. repeat split.
Qed.

Section MarchResults.

Variables (pos : R * R) (angle cur : R) (ray : Z).

(** A column drawn by the march is the column of one of its depths. *)
Lemma march_some (depths : list Z) (c : rect) :
  snd (march pos angle cur ray depths) = Ok (Some c) ->
  exists depth, In depth depths /\
                wall_column ray (IZR depth) angle cur = Ok c.
Proof.
  induction depths as [| d rest IH]; simpl; [discriminate |].
  destruct (cell _ _) as [v | e]; simpl; [| discriminate].
  destruct (v =? 1)%Z.
  - simpl. destruct (wall_column ray (IZR d) angle cur) as [c' | e] eqn:E;
      simpl; [| discriminate].
    intros H; injection H as <-. exists d; auto.
  - destruct (march pos angle cur ray rest) as [log r]; simpl in *.
    intros H. destruct (IH H) as (depth & Hin & Hw). exists depth; auto.
Qed.

(** A march that exhausted its depths saw an Empty cell at every one. *)
Lemma march_none_samples (depths : list Z) :
  forall d,
    spaced d depths = true ->
    can_move (fst pos + IZR d * cos cur) (snd pos + IZR d * sin cur) = true ->
    snd (march pos angle cur ray depths) = Ok None ->
    forall depth, In depth depths ->
      can_move (fst pos + IZR depth * cos cur) (snd pos + IZR depth * sin cur)
      = true.
Proof.
  induction depths as [| d' rest IH]; intros d Hsp Hcm Hnone depth Hin;
    [destruct Hin |].
  simpl in Hsp. apply andb_true_iff in Hsp; destruct Hsp as [Hsp Hrest].
  apply andb_true_iff in Hsp; destruct Hsp as [Hlo Hhi].
  apply Z.leb_le in Hlo, Hhi.
  apply can_move_interior in Hcm; destruct Hcm as [Hx Hy].
  pose proof (sample_near _ _ d d' (conj Hlo Hhi) (COS_bound cur) Hx) as Hx'.
  pose proof (sample_near _ _ d d' (conj Hlo Hhi) (SIN_bound cur) Hy) as Hy'.
  pose proof (index_near _ Hx') as Hi.
  pose proof (index_near _ Hy') as Hj.
  destruct (cell_facts _ _ Hi Hj) as (v & Hc & Hv & _).
  simpl in Hnone. rewrite Hc in Hnone.
  destruct Hv as [-> | ->]; simpl in Hnone.
  - assert (Hcm' : can_move (fst pos + IZR d' * cos cur)
                            (snd pos + IZR d' * sin cur) = true)
      by (apply can_move_true; cbv zeta; auto).
    destruct Hin as [<- | Hin]; [exact Hcm' |].
    apply (IH d' Hrest Hcm'); [| exact Hin].
    destruct (march pos angle cur ray rest) as [log r]; exact Hnone.
  - destruct (wall_column ray (IZR d') angle cur); simpl in Hnone; discriminate.
Qed.

End MarchResults.

(** No sample 544 units away from a point of the interior square lies in it:
    the square has a diagonal of less than 544. *)
Lemma far_sample_outside (px py c s : R) :
  s * s + c * c = 1 ->
  64 <= px < 448 -> 64 <= py < 448 ->
  ~ (64 <= px + 544 * c < 448 /\ 64 <= py + 544 * s < 448).
Proof.
  intros H1 Hx Hy [Hx' Hy'].
  assert (Hc : (544 * c) * (544 * c) < 384 * 384) by nra.
  assert (Hs : (544 * s) * (544 * s) < 384 * 384) by nra.
  nra.
Qed.

Lemma depth_544_sampled : In 544%Z (py_range 0 MAX_DEPTH 4).
Proof.
  unfold py_range. apply in_map_iff. exists 136%nat. split; [reflexivity |].
  apply in_seq.
  replace (Z.to_nat ((MAX_DEPTH - 0 + 4 - 1) / 4)) with 200%nat by reflexivity.
  lia.
Qed.

(** From a position in an Empty cell every ray of the fan finds a wall. *)
Lemma cast_ray_hits (pos : R * R) (angle : R) (ray : Z) :
  in_empty_cell pos -> (0 <= ray < NUM_RAYS)%Z ->
  exists c, snd (cast_ray pos angle ray) = Ok (Some c).
Proof.
  intros Hpos Hray.
  destruct (cast_ray_safe pos angle ray Hpos Hray) as [_ [[c |] Hr]];
    [now exists c | exfalso].
  unfold cast_ray in Hr; cbv zeta in Hr.
  set (cur := angle - FOV / 2 + IZR ray * DELTA_ANGLE) in *.
  assert (Hstart : can_move (fst pos + 0 * cos cur) (snd pos + 0 * sin cur) = true).
  { replace (fst pos + 0 * cos cur) with (fst pos) by ring.
    replace (snd pos + 0 * sin cur) with (snd pos) by ring. exact Hpos. }
  pose proof (march_none_samples pos angle cur ray _ 0%Z depths_spaced Hstart Hr
                544%Z depth_544_sampled) as Hfar.
  apply can_move_interior in Hfar.
  apply can_move_interior in Hpos.
  pose proof (sin2_cos2 cur) as H1; unfold Rsqr in H1.
  apply (far_sample_outside (fst pos) (snd pos) (cos cur) (sin cur) H1);
    tauto.
Qed.

Lemma cast_rays_columns (pos : R * R) (angle : R) (rays : list Z) :
  forall cols,
    snd (cast_rays pos angle rays) = Ok cols ->
    Forall (fun c => exists ray, In ray rays /\
                                 snd (cast_ray pos angle ray) = Ok (Some c)) cols.
Proof.
  induction rays as [| ray rest IH]; intros cols; simpl.
  - intros H; injection H as <-. constructor.
  - destruct (cast_ray pos angle ray) as [log r] eqn:E.
    destruct r as [c | e]; simpl; [| discriminate].
    destruct (cast_rays pos angle rest) as [log' r']; simpl in *.
    destruct r' as [cs | e]; simpl; [| discriminate].
    specialize (IH cs eq_refl).
    assert (IH' : Forall (fun c0 => exists ray0, (ray = ray0 \/ In ray0 rest) /\
                            snd (cast_ray pos angle ray0) = Ok (Some c0)) cs).
    { eapply Forall_impl; [| exact IH].
      intros c0 (ray0 & Hin & Hc). exists ray0; auto. }
    intros H; injection H as <-.
    destruct c as [c |]; [| exact IH'].
    constructor; [| exact IH'].
    exists ray. split; [now left | now rewrite E].
Qed.

Lemma cast_rays_all_hit (pos : R * R) (angle : R) (rays : list Z) :
  (forall ray, In ray rays -> exists c, snd (cast_ray pos angle ray) = Ok (Some c)) ->
  exists cols,
    snd (cast_rays pos angle rays) = Ok cols /\
    length cols = length rays /\
    forall k ray, nth_error rays k = Some ray ->
      exists c, nth_error cols k = Some c /\
                snd (cast_ray pos angle ray) = Ok (Some c).
Proof.
  induction rays as [| ray rest IH]; intros Hall; simpl.
  - exists []. repeat split. intros [| k] r H; discriminate.
  - destruct (Hall ray (or_introl eq_refl)) as [c Hc].
    destruct (IH (fun r H => Hall r (or_intror H))) as (cs & Hcs & Hlen & Hnth).
    destruct (cast_ray pos angle ray) as [log r] eqn:E. simpl in Hc; subst r.
    destruct (cast_rays pos angle rest) as [log' r']; simpl in *; subst r'.
    exists (c :: cs). split; [reflexivity |]. split; [simpl; congruence |].
    intros [| k] r Hk; simpl in *.
    + injection Hk as <-. exists c. rewrite E. auto.
    + now apply Hnth.
Qed.

Lemma rays_nth (k : nat) (ray : Z) :
  nth_error (py_range 0 NUM_RAYS 1) k = Some ray -> ray = Z.of_nat k.
Proof.
  unfold py_range. rewrite nth_error_map.
  destruct (nth_error (seq 0 _) k) as [n |] eqn:E; simpl; [| discriminate].
  intros H; injection H as <-.
  assert (Hlt : (k < length (seq 0 (Z.to_nat ((NUM_RAYS - 0 + 1 - 1) / 1))))%nat)
    by (apply nth_error_Some; congruence).
  rewrite length_seq in Hlt.
  apply (nth_error_nth _ _ 0%nat) in E.
  rewrite seq_nth in E by assumption. subst n. simpl.
  destruct (Z.of_nat k); reflexivity.
Qed.

(** X11.  From a position in an Empty cell every ray finds a wall before the
    depths run out (no sample 544 units away can still be inside the map's
    interior), so [ray_casting] draws exactly one column per ray: [NUM_RAYS]
    columns, the [k]-th at [x = k * SCALE] and [SCALE] wide. *)
Theorem every_ray_finds_a_wall (pos : R * R) (angle : R) :
  in_empty_cell pos ->
  exists cols,
    snd (ray_casting pos angle) = Ok cols /\
    Z.of_nat (length cols) = NUM_RAYS /\
    forall k c, nth_error cols k = Some c ->
                r_x c = IZR (Z.of_nat k * SCALE) /\ r_w c = IZR SCALE.
Proof.
  intros Hpos. unfold ray_casting.
  destruct (cast_rays_all_hit pos angle (py_range 0 NUM_RAYS 1))
    as (cols & Hcols & Hlen & Hnth).
  { intros ray Hin. apply py_range_In in Hin. now apply cast_ray_hits. }
  exists cols. split; [exact Hcols |]. split; [rewrite Hlen; reflexivity |].
  intros k c Hk.
  assert (Hlt : (k < length (py_range 0 NUM_RAYS 1))%nat).
  { rewrite <- Hlen. apply nth_error_Some. congruence. }
  destruct (nth_error (py_range 0 NUM_RAYS 1) k) as [ray |] eqn:Hray;
    [| apply nth_error_None in Hray; lia].
  destruct (Hnth k ray Hray) as (c' & Hk' & Hc).
  rewrite Hk in Hk'; injection Hk' as <-.
  apply rays_nth in Hray; subst ray.
  unfold cast_ray in Hc; cbv zeta in Hc.
  apply march_some in Hc. destruct Hc as (depth & _ & Hw).
  apply wall_column_shape in Hw; cbv zeta in Hw. tauto.
Qed.

Lemma every_ray_finds_a_wall_witness :
  exists cols,
    snd (ray_casting (96, 96) 0) = Ok cols /\
    Z.of_nat (length cols) = NUM_RAYS.
Proof.
  destruct (every_ray_finds_a_wall (96, 96) 0 can_move_player_start)
    as (cols & H1 & H2 & _).
  exists cols. split; [exact H1 | exact H2].
Defined.

Lemma fan_column_well_formed (ray : Z) (depth : Z) (angle : R) (c : rect) :
  (0 <= ray < NUM_RAYS)%Z -> (0 <= depth)%Z ->
  wall_column ray (IZR depth) angle
              (angle - FOV / 2 + IZR ray * DELTA_ANGLE) = Ok c ->
  well_formed_column c.
Proof.
  intros Hray Hd Hw.
  destruct (fisheye_angle_bounds angle ray Hray) as [Ha Hb].
  pose proof (cos_gt_0 _ Ha Hb) as Hcos.
  apply wall_column_shape in Hw; cbv zeta in Hw.
  set (d := IZR depth * cos (angle - (angle - FOV / 2 + IZR ray * DELTA_ANGLE))) in *.
  assert (Hd' : 0 <= d) by (apply Rmult_le_pos; [now apply IZR_le | lra]).
  destruct Hw as (Hx & Hwd & Hh & Hy & Hc).
  assert (Hhpos : 0 < r_h c)
    by (rewrite Hh; apply Rdiv_lt_0_compat; [exact PROJ_COEFF_pos | lra]).
  unfold well_formed_column. repeat split.
  - exists (255 / (1 + d * d * 0.0001)). split; [exact Hc |].
    assert (Hden : 1 <= 1 + d * d * 0.0001) by nra.
    split.
    + apply Rdiv_lt_0_compat; lra.
    + apply Rmult_le_reg_r with (1 + d * d * 0.0001); [lra |].
      unfold Rdiv. rewrite Rmult_assoc, Rinv_l by lra. nra.
  - exact Hhpos.
  - exact Hwd.
  - rewrite Hx. apply IZR_le. unfold SCALE, SCREEN_WIDTH, NUM_RAYS in *.
    change (1366 / 240)%Z with 5%Z. lia.
  - rewrite Hx, Hwd, <- plus_IZR. apply IZR_le.
    unfold SCALE, SCREEN_WIDTH, NUM_RAYS in *.
    change (1366 / 240)%Z with 5%Z. lia.
  - rewrite Hy. generalize (py_floordiv_bound (r_h c) 2); lra.
  - rewrite Hy. generalize (py_floordiv_bound (r_h c) 2); lra.
Qed.

(** X12.  Every column [ray_casting] draws, from whatever pose, is a grey
    of intensity in [(0, 255]], has a positive height, is [SCALE] wide, lies
    within [[0, NUM_RAYS * SCALE]] horizontally -- which ends 166 pixels
    short of the screen's width -- and is centred on the horizontal midline
    of the screen to within one pixel. *)
Theorem wall_columns_well_formed (pos : R * R) (angle : R) (cols : list rect) :
  snd (ray_casting pos angle) = Ok cols ->
  Forall well_formed_column cols /\
  IZR SCREEN_WIDTH - IZR (NUM_RAYS * SCALE) = 166.
Proof.
  intros H. split.
  - apply cast_rays_columns in H.
    eapply Forall_impl; [| exact H].
    intros c (ray & Hin & Hc). apply py_range_In in Hin.
    unfold cast_ray in Hc; cbv zeta in Hc.
    apply march_some in Hc. destruct Hc as (depth & Hd & Hw).
    apply py_range_ge in Hd; [| lia].
    eapply fan_column_well_formed; eauto.
  - unfold SCALE, SCREEN_WIDTH, NUM_RAYS.
    change (1366 / 240)%Z with 5%Z. simpl. lra.
Qed.

Lemma wall_columns_well_formed_witness :
  exists cols,
    snd (ray_casting (96, 96) 0) = Ok cols /\ Forall well_formed_column cols.
Proof.
  destruct (ray_casting_safe (96, 96) 0 can_move_player_start) as (_ & cols & H).
  exists cols. split; [exact H |].
  exact (proj1 (wall_columns_well_formed (96, 96) 0 cols H)).
Defined.

(** ** The fish-eye correction *)

Lemma fan_offset_bounds (angle : R) (ray : Z) :
  (0 <= ray < NUM_RAYS)%Z ->
  - (FOV / 2) < angle - (angle - FOV / 2 + IZR ray * DELTA_ANGLE) <= FOV / 2.
Proof.
  intros [H0 H1]. unfold NUM_RAYS in H1.
  assert (H1' : (ray <= 239)%Z) by lia.
  apply IZR_le in H0, H1'.
  unfold DELTA_ANGLE, FOV, NUM_RAYS.
  pose proof PI_RGT_0 as Hpi.
  split; nra.
Qed.

Lemma cos_within_half_FOV (t : R) :
  - (FOV / 2) < t <= FOV / 2 -> cos (FOV / 2) <= cos t <= 1.
Proof.
  intros [H1 H2]. destruct half_FOV_bounds as [F1 F2].
  pose proof PI_RGT_0 as Hpi.
  split; [| apply COS_bound].
  destruct (Rle_dec 0 t) as [Ht | Ht].
  - apply cos_decr_1; lra.
  - rewrite <- (cos_neg t). apply cos_decr_1; lra.
Qed.

(** X13.  The fish-eye correction multiplies the raw depth of a hit by the
    cosine of the ray's offset from the heading, a factor between
    [cos (FOV / 2)] and 1: the column of a wall found at raw depth [d] is at
    least as tall as [PROJ_COEFF / (d + 0.0001)] and at most as tall as
    [PROJ_COEFF / (d * cos (FOV / 2) + 0.0001)]; the ray in the middle of the
    fan looks along the heading and is not corrected at all. *)
Theorem fisheye_correction_bounds (ray : Z) (angle depth : R) (c : rect) :
  (0 <= ray < NUM_RAYS)%Z -> 0 <= depth ->
  wall_column ray depth angle (angle - FOV / 2 + IZR ray * DELTA_ANGLE) = Ok c ->
  PROJ_COEFF / (depth + 0.0001) <= r_h c
    <= PROJ_COEFF / (depth * cos (FOV / 2) + 0.0001) /\
  (ray = (NUM_RAYS / 2)%Z -> r_h c = PROJ_COEFF / (depth + 0.0001)).
Proof.
  intros Hray Hd Hw.
  pose proof (fan_offset_bounds angle ray Hray) as Hoff.
  pose proof (cos_within_half_FOV _ Hoff) as [Hc1 Hc2].
  destruct half_FOV_bounds as [F1 F2].
  assert (HcF : 0 < cos (FOV / 2)) by (apply cos_gt_0; lra).
  apply wall_column_shape in Hw; cbv zeta in Hw.
  destruct Hw as (_ & _ & Hh & _). rewrite Hh.
  set (k := cos (angle - (angle - FOV / 2 + IZR ray * DELTA_ANGLE))) in *.
  pose proof PROJ_COEFF_pos as HK.
  split; [split |].
  - unfold Rdiv. apply Rmult_le_compat_l; [lra |].
    apply Rinv_le_contravar; nra.
  - unfold Rdiv. apply Rmult_le_compat_l; [lra |].
    apply Rinv_le_contravar; nra.
  - intros ->. unfold k.
    replace (angle - (angle - FOV / 2 + IZR (NUM_RAYS / 2) * DELTA_ANGLE)) with 0.
    + rewrite cos_0. f_equal. ring.
    + unfold DELTA_ANGLE, NUM_RAYS. change (IZR (240 / 2)) with 120. field.
Qed.

Lemma fisheye_correction_bounds_witness :
  exists c,
    wall_column 0 100 0 (0 - FOV / 2 + IZR 0 * DELTA_ANGLE) = Ok c /\
    PROJ_COEFF / (100 + 0.0001) <= r_h c
      <= PROJ_COEFF / (100 * cos (FOV / 2) + 0.0001).
Proof.
  assert (Hray : (0 <= 0 < NUM_RAYS)%Z) by (unfold NUM_RAYS; lia).
  assert (Hd : 0 <= 100) by lra.
  destruct (wall_column_ok 0 100 0 Hray Hd) as [c Hc].
  exists c. split; [exact Hc |].
  exact (proj1 (fisheye_correction_bounds 0 0 100 c Hray Hd Hc)).
Defined.

(** X14.  Along one ray of the fan a nearer wall is drawn at least as tall
    and at least as bright as a farther one. *)
Theorem nearer_walls_taller_and_brighter (ray : Z) (angle d1 d2 : R) (c1 c2 : rect) :
  (0 <= ray < NUM_RAYS)%Z -> 0 <= d1 <= d2 ->
  wall_column ray d1 angle (angle - FOV / 2 + IZR ray * DELTA_ANGLE) = Ok c1 ->
  wall_column ray d2 angle (angle - FOV / 2 + IZR ray * DELTA_ANGLE) = Ok c2 ->
  r_h c2 <= r_h c1 /\
  fst (fst (r_color c2)) <= fst (fst (r_color c1)).
Proof.
  intros Hray [H1 H2] Hw1 Hw2.
  destruct (fisheye_angle_bounds angle ray Hray) as [Ha Hb].
  pose proof (cos_gt_0 _ Ha Hb) as Hcos.
  apply wall_column_shape in Hw1, Hw2; cbv zeta in Hw1, Hw2.
  destruct Hw1 as (_ & _ & Hh1 & _ & Hc1).
  destruct Hw2 as (_ & _ & Hh2 & _ & Hc2).
  rewrite Hh1, Hh2, Hc1, Hc2; simpl.
  set (k := cos (angle - (angle - FOV / 2 + IZR ray * DELTA_ANGLE))) in *.
  pose proof PROJ_COEFF_pos as HK.
  assert (E1 : 0 <= d1 * k) by nra.
  assert (E2 : d1 * k <= d2 * k) by nra.
  split.
  - unfold Rdiv. apply Rmult_le_compat_l; [lra |].
    apply Rinv_le_contravar; lra.
  - unfold Rdiv. apply Rmult_le_compat_l; [lra |].
    apply Rinv_le_contravar; nra.
Qed.

Lemma nearer_walls_taller_and_brighter_witness :
  exists c1 c2,
    wall_column 0 100 0 (0 - FOV / 2 + IZR 0 * DELTA_ANGLE) = Ok c1 /\
    wall_column 0 200 0 (0 - FOV / 2 + IZR 0 * DELTA_ANGLE) = Ok c2 /\
    r_h c2 <= r_h c1 /\ fst (fst (r_color c2)) <= fst (fst (r_color c1)).
Proof.
  assert (Hray : (0 <= 0 < NUM_RAYS)%Z) by (unfold NUM_RAYS; lia).
  destruct (wall_column_ok 0 100 0 Hray ltac:(lra)) as [c1 H1].
  destruct (wall_column_ok 0 200 0 Hray ltac:(lra)) as [c2 H2].
  exists c1, c2. split; [exact H1 |]. split; [exact H2 |].
  exact (nearer_walls_taller_and_brighter 0 0 100 200 c1 c2 Hray
           ltac:(lra) H1 H2).
Defined.

(** ** Shots and frames *)

Lemma shoot_idempotent (pos : R * R) (heading : R) (e : Enemy) :
  shoot pos heading (shoot pos heading e) = shoot pos heading e.
Proof.
  destruct (alive e) eqn:Ha.
  - destruct (shoot_cases pos heading e Ha) as [(_ & _ & ->) | (_ & E)].
    + now apply shoot_dead.
    + now rewrite !E.
  - rewrite (shoot_dead pos heading e Ha). now apply shoot_dead.
Qed.

(** X15.  A shot changes nothing but alive flags, and a second shot from the
    same pose changes nothing at all: [fire] keeps the player's pose, the
    length of the roster and every enemy's position, and is idempotent. *)
Theorem fire_idempotent (st : state) :
  fire (fire st) = fire st /\
  player_pos (fire st) = player_pos st /\
  player_angle (fire st) = player_angle st /\
  map (fun e => (enemy_x e, enemy_y e)) (enemies (fire st)) =
  map (fun e => (enemy_x e, enemy_y e)) (enemies st).
Proof.
  unfold fire; simpl. repeat split.
  - f_equal. rewrite map_map. apply map_ext. intros e. apply shoot_idempotent.
  - rewrite map_map. apply map_ext. intros e.
    destruct (shoot_position (player_pos st) (player_angle st) e) as [-> ->].
    reflexivity.
Qed.

(** What a frame does to one enemy, exactly: the shot, if the key is held,
    is taken from the pose the player has after this frame's movement; the
    enemy left alive by it makes its pursuit step and is then drawn. *)
Lemma frame_enemy_exact (ks : keys) (st st' : state) (out : frame_out)
      (k : nat) (e : Enemy) :
  frame ks st = Ok (st', out) ->
  nth_error (enemies st) k = Some e ->
  let pose := movement ks st in
  let e1 := if K_SPACE ks
            then shoot (player_pos pose) (player_angle pose) e else e in
  let e2 := if alive e1 then move_toward_player (player_pos pose) e1 else e1 in
  player_pos st' = player_pos pose /\
  player_angle st' = player_angle pose /\
  nth_error (enemies st') k = Some e2 /\
  exists d, nth_error (sprites out) k = Some d /\
            draw (player_pos pose) (player_angle pose) e2 = Ok d.
Proof.
  intros H Hk; cbv zeta.
  apply frame_inv in H; cbv zeta in H. destruct H as (Hp & Ha & _ & Hs).
  destruct (movement_frame ks st) as (Hen & _).
  set (pose := movement ks st) in *.
  assert (Hsh : player_pos (shooting ks pose) = player_pos pose /\
                player_angle (shooting ks pose) = player_angle pose /\
                nth_error (enemies (shooting ks pose)) k =
                Some (if K_SPACE ks
                      then shoot (player_pos pose) (player_angle pose) e else e)).
  { unfold shooting. destruct (K_SPACE ks).
    - rewrite fire_nth, Hen, Hk. auto.
    - rewrite Hen. auto. }
  destruct Hsh as (Hp1 & Ha1 & Hk1).
  rewrite Hp1 in Hp. rewrite Ha1 in Ha.
  rewrite Hp1, Ha1 in Hs.
  destruct (enemy_steps_nth (player_pos pose) (player_angle pose)
              (enemies (shooting ks pose))) as (es' & ds & Hs' & _ & Hnth).
  rewrite Hs in Hs'. injection Hs' as <- <-.
  destruct (Hnth k _ Hk1) as (d & Hstep & Hk' & Hd).
  unfold enemy_step in Hstep.
  set (e1 := if K_SPACE ks
             then shoot (player_pos pose) (player_angle pose) e else e) in *.
  destruct (draw (player_pos pose) (player_angle pose)
              (if alive e1 then move_toward_player (player_pos pose) e1 else e1))
    as [d' | err] eqn:Hdraw; simpl in Hstep; [| discriminate].
  injection Hstep as He' Hd'. subst d'.
  rewrite <- He' in Hk'.
  repeat (split; [assumption |]).
  exists d. split; [assumption | reflexivity].
Qed.

(** X16.  Within one frame the order is: movement, shot, pursuit, sprite.
    An alive enemy that the shot of this frame hits -- the window being
    measured from the pose the player has after this frame's movement -- is
    dead at the end of the frame, has not moved, and has no sprite; an alive
    enemy that is not hit, or any alive enemy when the key is not held, ends
    the frame alive, one pursuit step towards the player's new position. *)
Theorem frame_shot_before_pursuit (ks : keys) (st st' : state) (out : frame_out)
        (k : nat) (e : Enemy) :
  frame ks st = Ok (st', out) ->
  nth_error (enemies st) k = Some e -> alive e = true ->
  let pose := movement ks st in
  let hit := angle_diff (atan2 (enemy_y e - snd (player_pos pose))
                               (enemy_x e - fst (player_pos pose)))
                        (player_angle pose) < 0.1 /\
             distance_to_player (player_pos pose) e < 300 in
  (K_SPACE ks = true /\ hit ->
   nth_error (enemies st') k = Some (mkEnemy (enemy_x e) (enemy_y e) false) /\
   nth_error (sprites out) k = Some None) /\
  (K_SPACE ks = false \/ ~ hit ->
   nth_error (enemies st') k = Some (move_toward_player (player_pos st') e)).
Proof.
  intros H Hk Ha; cbv zeta.
  destruct (frame_enemy_exact ks st st' out k e H Hk)
    as (Hp & _ & Hk' & d & Hd & Hdraw).
  cbv zeta in Hk', Hdraw. rewrite Hp.
  set (pose := movement ks st) in *.
  destruct (shoot_cases (player_pos pose) (player_angle pose) e Ha)
    as [(D1 & R1 & Es) | (N & Es)]; cbv zeta in *.
  - split.
    + intros [Hsp _]. rewrite Hsp, Es in Hk', Hdraw. simpl in Hk', Hdraw.
      rewrite draw_dead in Hdraw by reflexivity. injection Hdraw as <-. auto.
    + intros [Hsp | Hn]; [| exfalso; apply Hn; auto].
      rewrite Hsp, Ha in Hk'. exact Hk'.
  - split.
    + intros [_ Hhit]. contradiction.
    + intros _. destruct (K_SPACE ks).
      * rewrite Es, Ha in Hk'. exact Hk'.
      * rewrite Ha in Hk'. exact Hk'.
Qed.

Lemma frame_shot_before_pursuit_witness :
  exists st' out,
    frame (mkKeys false false false false true) behind_wall = Ok (st', out) /\
    nth_error (enemies st') 0 = Some (mkEnemy 224 160 false) /\
    nth_error (sprites out) 0 = Some None.
Proof.
  assert (Hpos : in_empty_cell (player_pos behind_wall))
    by (unfold in_empty_cell; simpl; in_tile 1%Z 2%Z).
  destruct (frame_total (mkKeys false false false false true) behind_wall Hpos)
    as (st' & out & Hf).
  exists st', out. split; [exact Hf |].
  destruct (axis_enemy 96 160 224 true ltac:(lra)) as [Hd Hr].
  apply (proj1 (frame_shot_before_pursuit _ behind_wall st' out 0
                  (mkEnemy 224 160 true) Hf eq_refl eq_refl)).
  split; [reflexivity |]. simpl. split.
  - simpl in Hd. rewrite Hd. lra.
  - rewrite Hr. lra.
Defined.

(** ** The geometry of a step *)

Lemma atan2_origin : atan2 0 0 = 0.
Proof.
  unfold atan2. destruct (Rlt_dec 0 0); [lra |]. reflexivity.
Qed.

(** In exact arithmetic a pursuit step that commits is 0.5 units long and
    takes the distance to the player from [D] to [|D - 0.5|]. *)
Lemma pursuit_step_exact (pos : R * R) (self : Enemy) :
  move_toward_player pos self <> self ->
  let self' := move_toward_player pos self in
  hypot (enemy_x self' - enemy_x self) (enemy_y self' - enemy_y self) = 0.5 /\
  distance_to_player pos self' = Rabs (distance_to_player pos self - 0.5) /\
  can_move (enemy_x self') (enemy_y self') = true /\
  alive self' = alive self.
Proof.
  intros Hmove; cbv zeta.
  destruct (move_toward_player_cases pos self) as [[Hm ->] | [_ E]];
    [| contradiction].
  cbv zeta in Hm. simpl.
  set (dx := fst pos - enemy_x self) in *.
  set (dy := snd pos - enemy_y self) in *.
  set (a := atan2 dy dx) in *.
  split; [| split; [| split; [exact Hm | reflexivity]]].
  - replace (enemy_x self + 0.5 * cos a - enemy_x self) with (0.5 * cos a) by ring.
    replace (enemy_y self + 0.5 * sin a - enemy_y self) with (0.5 * sin a) by ring.
    apply hypot_polar; lra.
  - unfold distance_to_player; simpl. fold dx dy.
    replace (fst pos - (enemy_x self + 0.5 * cos a)) with (dx - 0.5 * cos a)
      by (unfold dx; ring).
    replace (snd pos - (enemy_y self + 0.5 * sin a)) with (dy - 0.5 * sin a)
      by (unfold dy; ring).
    pose proof (hypot_nonneg dx dy) as HD.
    destruct HD as [HD | HD].
    + destruct (atan2_cos_sin dy dx HD) as [Hc Hs]. fold a in Hc, Hs.
      rewrite Hc, Hs.
      set (D := hypot dx dy) in *.
      replace (dx - 0.5 * (dx / D)) with ((1 - 0.5 / D) * dx) by (field; lra).
      replace (dy - 0.5 * (dy / D)) with ((1 - 0.5 / D) * dy) by (field; lra).
      rewrite hypot_scale. fold D.
      rewrite <- (Rabs_pos_eq D) at 2 by lra.
      rewrite <- Rabs_mult. f_equal. field; lra.
    + assert (Hz : dx = 0 /\ dy = 0).
      { destruct (Req_dec_T dx 0) as [Hx |Hx]; destruct (Req_dec_T dy 0) as [Hy | Hy];
          auto; exfalso;
          assert (0 < hypot dx dy) by (apply hypot_pos_iff; auto); lra. }
      destruct Hz as [Zx Zy]. rewrite <- HD.
      unfold a. rewrite Zx, Zy, atan2_origin, cos_0, sin_0.
      replace (0 - 0.5 * 1) with (0 - 0.5) by lra.
      replace (0 - 0.5 * 0) with (0 - 0) by lra.
      rewrite hypot_sym, Rabs_minus_sym, !Rminus_0_r.
      rewrite hypot_axis, Rabs_pos_eq by lra. reflexivity.
Qed.

(** X17.  A pursuit step that commits brings the enemy nearer: with the
    player in an Empty cell and the enemy at least half a unit away, the
    enemy that moved is strictly closer to the player than it was, stands
    in an Empty cell, and is as alive as before. *)
Theorem pursuit_step_closes_in (pos : R * R) (self : Enemy) :
  in_empty_cell pos ->
  move_toward_player pos self <> self ->
  0.5 <= distance_to_player pos self ->
  let self' := move_toward_player pos self in
  distance_to_player pos self' < distance_to_player pos self /\
  can_move (enemy_x self') (enemy_y self') = true /\
  alive self' = alive self.
Proof.
  intros _ Hmove HD; cbv zeta.
  destruct (pursuit_step_exact pos self Hmove) as (_ & Hd & Hc & Ha).
  split; [| split; assumption].
  rewrite Hd, Rabs_pos_eq; lra.
Qed.

Lemma pursuit_step_closes_in_witness :
  distance_to_player (96, 96) (move_toward_player (96, 96) (mkEnemy 196 96 true))
  < distance_to_player (96, 96) (mkEnemy 196 96 true).
Proof.
  refine (proj1 (pursuit_step_closes_in (96, 96) (mkEnemy 196 96 true) _ _ _)).
  - exact can_move_player_start.
  - destruct (move_toward_player_cases (96, 96) (mkEnemy 196 96 true))
      as [[_ ->] | [Hf _]].
    + simpl. intros H. injection H as Hx _.
      replace (96 - 96) with 0 in Hx by lra.
      rewrite atan2_negative_axis, cos_PI in Hx by lra. lra.
    + exfalso. cbv zeta in Hf; simpl in Hf.
      replace (96 - 96) with 0 in Hf by lra.
      rewrite atan2_negative_axis, cos_PI, sin_PI in Hf by lra.
      assert (Ht : can_move (196 + 0.5 * -1) (96 + 0.5 * 0) = true)
        by (in_tile 3%Z 1%Z).
      congruence.
  - unfold distance_to_player; simpl.
    replace (96 - 196) with (0 - 100) by lra.
    replace (96 - 96) with (0 - 0) by lra.
    rewrite hypot_sym, !Rminus_0_r, hypot_axis; lra.
Defined.

Lemma tile_near (x x' : R) :
  64 <= x < 448 -> 64 <= x' < 448 -> - 4 <= x' - x <= 4 ->
  (Z.abs (py_int (x' / IZR TILE_SIZE) - py_int (x / IZR TILE_SIZE)) <= 1)%Z.
Proof.
  intros Hx Hx' Hd. unfold TILE_SIZE.
  assert (Ha : (1 <= py_int (x / 64))%Z) by (apply py_int_ge; [lia | lra]).
  assert (Hb : (1 <= py_int (x' / 64))%Z) by (apply py_int_ge; [lia | lra]).
  pose proof (py_int_bracket (x / 64) _ _ Ha (conj (Z.le_refl _) (Z.le_refl _)))
    as Ba.
  pose proof (py_int_bracket (x' / 64) _ _ Hb (conj (Z.le_refl _) (Z.le_refl _)))
    as Bb.
  set (a := py_int (x / 64)) in *. set (b := py_int (x' / 64)) in *.
  assert (H1 : (b < a + 2)%Z).
  { apply lt_IZR. rewrite plus_IZR. lra. }
  assert (H2 : (a < b + 2)%Z).
  { apply lt_IZR. rewrite plus_IZR. lra. }
  lia.
Qed.



(** ** Off the map *)

Lemma py_getitem_out (A : Type) (l : list A) (i : Z) :
  (py_len l <= i \/ i < - py_len l)%Z -> py_getitem l i = Raise IndexError.
Proof.
  intros H. unfold py_getitem, py_len in *.
  destruct (i <? 0)%Z eqn:Hi; [apply Z.ltb_lt in Hi | apply Z.ltb_ge in Hi].
  - destruct H as [H | H]; [lia |].
    destruct (Z.of_nat (length l) + i <? 0)%Z eqn:Hk;
      [reflexivity | apply Z.ltb_ge in Hk; lia].
  - destruct H as [H | H]; [| lia].
    destruct (i <? 0)%Z eqn:Hk; [apply Z.ltb_lt in Hk; lia |].
    assert (Hn : nth_error l (Z.to_nat i) = None) by (apply nth_error_None; lia).
    now rewrite Hn.
Qed.

Lemma py_getitem_wrap (A : Type) (l : list A) (i : Z) :
  (- py_len l <= i < 0)%Z -> py_getitem l i = py_getitem l (py_len l + i).
Proof.
  intros H.
  assert (Hi : (i <? 0)%Z = true) by (apply Z.ltb_lt; lia).
  assert (Hk : (py_len l + i <? 0)%Z = false) by (apply Z.ltb_ge; lia).
  unfold py_getitem; cbv zeta. rewrite Hi, !Hk. reflexivity.
Qed.

Lemma game_map_rows (j : Z) (row : list Z) :
  py_getitem game_map j = Ok row -> py_len row = 8%Z.
Proof.
  unfold py_getitem. destruct (_ <? 0)%Z; [discriminate |].
  destruct (nth_error game_map _) as [r |] eqn:E; [| discriminate].
  intros H; injection H as <-. apply nth_error_In in E.
  simpl in E.
  repeat (destruct E as [<- | E]; [reflexivity |]). destruct E.
Qed.

Lemma cell_out_of_python_range (j i : Z) :
  (8 <= i \/ i < -8 \/ 8 <= j \/ j < -8)%Z -> cell j i = Raise IndexError.
Proof.
  intros H. unfold cell.
  destruct (py_getitem game_map j) as [row | e] eqn:Hrow; simpl.
  - pose proof (game_map_rows j row Hrow) as Hlen.
    destruct H as [H | [H | H]].
    + apply py_getitem_out; lia.
    + apply py_getitem_out; lia.
    + rewrite py_getitem_out in Hrow; [discriminate |].
      change (py_len game_map) with 8%Z. lia.
  - f_equal. unfold py_getitem in Hrow.
    destruct (_ <? 0)%Z; [congruence |].
    destruct (nth_error _ _); congruence.
Qed.

Lemma ray_casting_first_sample_fault (pos : R * R) (angle : R) (i j : Z) :
  py_int (fst pos / IZR TILE_SIZE) = i ->
  py_int (snd pos / IZR TILE_SIZE) = j ->
  cell j i = Raise IndexError ->
  ray_casting pos angle = ([(j, i)], Raise IndexError).
Proof.
  intros Hi Hj Hc. unfold ray_casting. rewrite py_range_rays_head.
  cbn [cast_rays].
  now rewrite (cast_ray_first_sample_fault pos angle 0 i j Hi Hj Hc).
Qed.

(** X19.  Off the map the two sides differ.  At or beyond the right or the
    bottom edge ([x >= 512] or [y >= 512]) the very first access of
    [ray_casting] raises [IndexError], whatever the heading.  To the left or
    above, a negative index within [-8 .. -1] does not raise: it is read
    from the opposite edge of the map, [game_map[j][i]] being
    [game_map[j][i + 8]], and likewise for the row. *)
Theorem ray_casting_off_the_map (pos : R * R) (angle : R) :
  (IZR (MAP_WIDTH * TILE_SIZE) <= fst pos \/
   IZR (MAP_HEIGHT * TILE_SIZE) <= snd pos ->
   snd (ray_casting pos angle) = Raise IndexError) /\
  (forall j i, (-8 <= i < 0)%Z -> cell j i = cell j (i + 8)) /\
  (forall j i, (-8 <= j < 0)%Z -> cell j i = cell (j + 8) i).
Proof.
  split.
  - change (IZR (MAP_WIDTH * TILE_SIZE)) with 512.
    change (IZR (MAP_HEIGHT * TILE_SIZE)) with 512.
    intros H.
    rewrite (ray_casting_first_sample_fault pos angle _ _ eq_refl eq_refl);
      [reflexivity |].
    apply cell_out_of_python_range. unfold TILE_SIZE.
    destruct H as [H | H].
    + left. apply py_int_ge; [lia | simpl; lra].
    + right; right; left. apply py_int_ge; [lia | simpl; lra].
  - split.
    + intros j i Hi. unfold cell.
      destruct (py_getitem game_map j) as [row | e] eqn:Hrow; simpl; [| reflexivity].
      pose proof (game_map_rows j row Hrow) as Hlen.
      rewrite py_getitem_wrap by lia. rewrite Hlen. f_equal. lia.
    + intros j i Hj. unfold cell.
      rewrite (py_getitem_wrap _ game_map j) by (change (py_len game_map) with 8%Z; lia).
      change (py_len game_map) with 8%Z.
      replace (8 + j)%Z with (j + 8)%Z by lia. reflexivity.
Qed.

Lemma ray_casting_off_the_map_witness :
  (IZR (MAP_WIDTH * TILE_SIZE) <= fst (512, 96) \/
   IZR (MAP_HEIGHT * TILE_SIZE) <= snd (512, 96)) /\
  snd (ray_casting (512, 96) 1) = Raise IndexError.
Proof.
  assert (H : IZR (MAP_WIDTH * TILE_SIZE) <= fst (512, 96) \/
              IZR (MAP_HEIGHT * TILE_SIZE) <= snd (512, 96)).
  { left. change (IZR (MAP_WIDTH * TILE_SIZE)) with 512. simpl. lra. }
  split; [exact H | exact (proj1 (ray_casting_off_the_map (512, 96) 1) H)].
Defined.

(** ** The roster *)

Lemma enemy_steps_lengths (pos : R * R) (heading : R) (es : list Enemy) :
  forall es' ds,
    enemy_steps pos heading es = Ok (es', ds) ->
    length es' = length es /\ length ds = length es.
Proof.
  induction es as [| e rest IH]; intros es' ds; simpl.
  - intros H; injection H as <- <-. auto.
  - destruct (enemy_step pos heading e) as [[e1 d1] | err]; simpl; [| discriminate].
    destruct (enemy_steps pos heading rest) as [[es1 ds1] | err]; simpl;
      [| discriminate].
    intros H; injection H as <- <-. simpl.
    destruct (IH es1 ds1 eq_refl) as [-> ->]. auto.
Qed.

Lemma frame_lengths (ks : keys) (st st' : state) (out : frame_out) :
  frame ks st = Ok (st', out) ->
  length (enemies st') = length (enemies st) /\
  length (sprites out) = length (enemies st).
Proof.
  intros H. apply frame_inv in H; cbv zeta in H. destruct H as (_ & _ & _ & Hs).
  apply enemy_steps_lengths in Hs.
  destruct (shooting_frame ks (movement ks st)) as (_ & _ & Hl & _).
  destruct (movement_frame ks st) as (Hm & _).
  rewrite Hl, Hm in Hs. exact Hs.
Qed.

(** X20.  Enemies are deleted logically only.  Over any run of frames the
    roster keeps its length, every frame hands over one sprite slot per
    roster entry, and an enemy alive at the end was alive, in the same slot,
    at the start. *)
Theorem roster_is_fixed (inputs : list keys) :
  forall st st' outs,
    run inputs st = Ok (st', outs) ->
    length (enemies st') = length (enemies st) /\
    length outs = length inputs /\
    Forall (fun out => length (sprites out) = length (enemies st)) outs /\
    (forall k e', nth_error (enemies st') k = Some e' -> alive e' = true ->
       exists e, nth_error (enemies st) k = Some e /\ alive e = true).
Proof.
  induction inputs as [| ks rest IH]; intros st st' outs Hrun; simpl in Hrun.
  - injection Hrun as <- <-. repeat split; [constructor | eauto].
  - destruct (frame ks st) as [[st1 out] | err] eqn:Hf; simpl in Hrun;
      [| discriminate].
    destruct (run rest st1) as [[st2 outs2] | err] eqn:Hr; simpl in Hrun;
      [| discriminate].
    injection Hrun as <- <-.
    destruct (frame_lengths ks st st1 out Hf) as [L1 L2].
    destruct (IH st1 st2 outs2 Hr) as (L3 & L4 & L5 & Hal).
    split; [congruence |]. split; [simpl; congruence |]. split.
    + constructor; [exact L2 |].
      eapply Forall_impl; [| exact L5]. intros o Ho; congruence.
    + intros k e' Hk' Ha'.
      destruct (Hal k e' Hk' Ha') as (e1 & Hk1 & Ha1).
      assert (Hlt : (k < length (enemies st))%nat).
      { rewrite <- L1. apply nth_error_Some. congruence. }
      destruct (nth_error (enemies st) k) as [e |] eqn:Hk;
        [| apply nth_error_None in Hk; lia].
      exists e. split; [reflexivity |].
      destruct (alive e) eqn:Ha; [reflexivity | exfalso].
      destruct (frame_dead ks st st1 out k e Hf Hk Ha) as [Hk1' _].
      congruence.
Qed.

Lemma roster_is_fixed_witness :
  exists st' outs,
    run [all_keys; no_keys; all_keys] state0 = Ok (st', outs) /\
    length (enemies st') = length (enemies state0) /\
    length outs = 3%nat.
Proof.
  destruct (run_total [all_keys; no_keys; all_keys] state0 can_move_player_start)
    as (st' & outs & Hrun).
  exists st', outs. split; [exact Hrun |].
  destruct (roster_is_fixed _ state0 st' outs Hrun) as (H1 & H2 & _).
  split; [exact H1 | exact H2].
Defined.

(** ** The march from inside the grid *)

Lemma cast_ray_returns_in_grid (pos : R * R) (angle : R) (ray : Z) :
  (0 <= ray < NUM_RAYS)%Z ->
  in_grid (fst (tile_of pos)) (snd (tile_of pos)) = true ->
  exists r, snd (cast_ray pos angle ray) = Ok r.
Proof.
  intros Hray Hg. unfold tile_of in Hg; simpl in Hg.
  destruct (cell_in_grid _ _ Hg) as (v & Hc & [Hv | Hv]); subst v.
  - apply cast_ray_safe; [| exact Hray].
    unfold in_empty_cell. apply can_move_true; cbv zeta.
    apply in_grid_spec in Hg. destruct Hg; auto.
  - destruct (cast_ray_columns angle ray Hray 0%Z) as [c Hcol].
    { rewrite py_range_depths_head; left; reflexivity. }
    unfold cast_ray; cbv zeta.
    rewrite py_range_depths_head; simpl march.
    replace (fst pos + 0 * _) with (fst pos) by ring.
    replace (snd pos + 0 * _) with (snd pos) by ring.
    rewrite Hc; simpl. rewrite Hcol. eexists; reflexivity.
Qed.

(** X21.  From every pose whose tile is a cell of the grid, Wall cells
    included, the depth march of every ray reads at most
    [MAX_DEPTH / 4 = 200] cells and then stops in one of two ways: on the
    first Wall cell it reads, with a column drawn, or after the last depth,
    with nothing drawn.  It does not raise. *)
Theorem march_stops_from_inside_the_grid (pos : R * R) (angle : R) (ray : Z) :
  (0 <= ray < NUM_RAYS)%Z ->
  in_grid (fst (tile_of pos)) (snd (tile_of pos)) = true ->
  (MAX_DEPTH / 4 = 200)%Z /\
  (Z.of_nat (length (fst (cast_ray pos angle ray))) <= MAX_DEPTH / 4)%Z /\
  (stops_at_wall (cast_ray pos angle ray) \/
   stops_exhausted (cast_ray pos angle ray)).
Proof.
  intros Hray Hg.
  destruct (cast_ray_outcome pos angle ray Hray) as [Hlen H]; cbv zeta in *.
  split; [reflexivity |]. split; [exact Hlen |].
  destruct (cast_ray_returns_in_grid pos angle ray Hray Hg) as [r Hr].
  destruct H as [H | [H | (pre & ji & _ & _ & _ & _ & Hf)]]; auto.
  congruence.
Qed.

(** A pose inside the Wall cell (0, 0): ray 0 stops on its first sample. *)
Lemma march_stops_from_inside_the_grid_witness :
  in_grid (fst (tile_of (32, 32))) (snd (tile_of (32, 32))) = true /\
  (stops_at_wall (cast_ray (32, 32) 0 0) \/
   stops_exhausted (cast_ray (32, 32) 0 0)).
Proof.
  assert (Hg : in_grid (fst (tile_of (32, 32))) (snd (tile_of (32, 32))) = true).
  { unfold tile_of, TILE_SIZE; simpl fst; simpl snd.
    rewrite (py_int_eq 0 (32 / 64)) by (try lia; lra). reflexivity. }
  split; [exact Hg |].
  refine (proj2 (proj2 (march_stops_from_inside_the_grid (32, 32) 0 0 _ Hg))).
  unfold NUM_RAYS; lia.
Defined.
